(** * ConcurrentHashMap: a lock-striped hash map with chained buckets

    Sequential model of [concurrent_hash_map.h].  One call runs from its
    first statement to its return with no other thread in between, so the
    stripe mutexes and the rehash mutex do not appear in the state: what is
    left is the vector of bucket chains [data_] and the two [size_t]
    counters [size_] and [capacity_]. *)

From Stdlib Require Import ZArith Lia SpecFloat.
From stdpp Require Import base tactics option numbers list.

Local Open Scope Z_scope.

(** ** Machine arithmetic *)

(** [size_t] is 64 bits wide; arithmetic on it wraps. *)
Definition size_t_mod : Z := 2 ^ 64.

Definition wrap (z : Z) : Z := z mod size_t_mod.

(** [double] is IEEE 754 binary64, rounding to nearest even. *)
Definition prec : Z := 53.
Definition emax : Z := 1024.

(** [static_cast<double>(n)] for an unsigned integer [n]. *)
Definition to_double (n : Z) : spec_float := binary_normalize prec emax n 0 false.

(** The literal [0.9] is the double [0x3FECCCCCCCCCCCCD]. *)
Definition kLoadFactor : spec_float := S754_finite false 8106479329266893 (-53).

Definition kMutexesCount : Z := 63.

(** [capacity * kLoadFactor <= size], both counters converted to double. *)
Definition load_exceeded (capacity size : Z) : bool :=
  SFleb (SFmul prec emax (to_double capacity) kLoadFactor) (to_double size).

(** The only exception the class throws itself. *)
Inductive exception : Set := out_of_range.

Inductive result (A : Type) : Type :=
| Returns (a : A)
| Throws (e : exception).
Arguments Returns {A} a.
Arguments Throws {A} e.

(** The [Hash] template parameter: [hasher key] is [hasher_(key)], a pure
    function into [size_t]. *)
Class Hash (K : Type) := hasher : K → Z.

(** [V{}], the value-initialised [V] that [Find] returns for a missing key. *)
Class ValueInit (V : Type) := V_default : V.

Section Model.

Context {K V : Type}.
Context {K_eq_dec : EqDecision K} {K_hash : Hash K} {V_init : ValueInit V}.

(** A bucket is a chain of entries, [std::list<std::pair<K, V>>]. *)
Local Abbreviation bucket := (list (K * V)).

Record ConcurrentHashMap : Type := mkMap {
  data_ : list bucket;
  size_ : Z;
  capacity_ : Z
}.

(** The constructors all delegate to the three-argument one, which
    ignores both hints. *)
Definition new_map : ConcurrentHashMap :=
  {| data_ := replicate (Z.to_nat kMutexesCount) [];
     size_ := 0;
     capacity_ := kMutexesCount |}.

(** [data_[id]]; the C++ access is unchecked, an index past the end reads
    as an empty chain here. *)
Definition chain (m : ConcurrentHashMap) (id : Z) : bucket :=
  default [] (data_ m !! Z.to_nat id).

(** [FindInList]: position and contents of the first entry of chain [id]
    whose key equals [key]; [None] stands for [data_[id].end()]. *)
Definition FindInList (m : ConcurrentHashMap) (id : Z) (key : K)
  : option (nat * (K * V)) :=
  list_find (λ e, e.1 = key) (chain m id).

(** [data_[id].push_back(e)] on a vector of chains.  The C++ index is
    unchecked; here an index past the end changes nothing.  On well-formed
    states the index is always in range ([bucket_index], [wf_length]). *)
Definition push_back (id : Z) (e : K * V) (d : list bucket) : list bucket :=
  alter (λ l, l ++ [e]) (Z.to_nat id) d.

Definition Rehash (m : ConcurrentHashMap) : ConcurrentHashMap :=
  let capacity := wrap (Z.shiftl (capacity_ m) 2) in
  let new_data := replicate (Z.to_nat capacity) [] in
  let new_data :=
    foldl (λ nd list,
             foldl (λ nd i, push_back (hasher i.1 mod capacity) i nd) nd list)
          new_data (data_ m) in
  {| data_ := new_data; size_ := size_ m; capacity_ := capacity |}.

(** The load-factor test of [Insert], with the second test under the
    rehash mutex. *)
Definition grow_if_loaded (m : ConcurrentHashMap) : ConcurrentHashMap :=
  if load_exceeded (capacity_ m) (size_ m) then
    if load_exceeded (capacity_ m) (size_ m) then Rehash m else m
  else m.

Definition Insert (key : K) (value : V) (m : ConcurrentHashMap)
  : bool * ConcurrentHashMap :=
  let m := grow_if_loaded m in
  let data_id := hasher key mod capacity_ m in
  match FindInList m data_id key with
  | Some _ => (false, m)
  | None =>
      (true, {| data_ := push_back data_id (key, value) (data_ m);
                size_ := wrap (size_ m + 1);
                capacity_ := capacity_ m |})
  end.

Definition Erase (key : K) (m : ConcurrentHashMap) : bool * ConcurrentHashMap :=
  let data_id := hasher key mod capacity_ m in
  match FindInList m data_id key with
  | Some (it, _) =>
      (true, {| data_ := alter (delete it) (Z.to_nat data_id) (data_ m);
                size_ := wrap (size_ m - 1);
                capacity_ := capacity_ m |})
  | None => (false, m)
  end.

Definition Clear (m : ConcurrentHashMap) : ConcurrentHashMap :=
  {| data_ := replicate (Z.to_nat kMutexesCount) [];
     size_ := 0;
     capacity_ := kMutexesCount |}.

Definition Find (key : K) (m : ConcurrentHashMap) : bool * V :=
  let data_id := hasher key mod capacity_ m in
  match FindInList m data_id key with
  | Some (_, e) => (true, e.2)
  | None => (false, V_default)
  end.

Definition At (key : K) (m : ConcurrentHashMap) : result V :=
  let data_id := hasher key mod capacity_ m in
  match FindInList m data_id key with
  | Some (_, e) => Returns e.2
  | None => Throws out_of_range
  end.

Definition Size (m : ConcurrentHashMap) : Z := size_ m.

(** ** The public interface as a transition system *)

Inductive call : Type :=
| CallInsert (key : K) (value : V)
| CallErase (key : K)
| CallClear
| CallFind (key : K)
| CallAt (key : K)
| CallSize.

Inductive answer : Type :=
| AnsBool (b : bool)
| AnsVoid
| AnsFound (r : bool * V)
| AnsValue (v : V)
| AnsSize (n : Z).

(** One call of a member function: what the caller gets (a return value or
    an exception) and the state left behind.  The [const] members leave the
    state as it is. *)
Definition exec (c : call) (m : ConcurrentHashMap)
  : result answer * ConcurrentHashMap :=
  match c with
  | CallInsert key value =>
      let r := Insert key value m in (Returns (AnsBool r.1), r.2)
  | CallErase key =>
      let r := Erase key m in (Returns (AnsBool r.1), r.2)
  | CallClear => (Returns AnsVoid, Clear m)
  | CallFind key => (Returns (AnsFound (Find key m)), m)
  | CallAt key =>
      match At key m with
      | Returns v => (Returns (AnsValue v), m)
      | Throws e => (Throws e, m)
      end
  | CallSize => (Returns (AnsSize (Size m)), m)
  end.

Fixpoint run (cs : list call) (m : ConcurrentHashMap) : ConcurrentHashMap :=
  match cs with
  | [] => m
  | c :: cs => run cs (exec c m).2
  end.

(** [m] is the state of a map [n] calls after its construction. *)
Definition reachable_in (n : Z) (m : ConcurrentHashMap) : Prop :=
  ∃ cs, Z.of_nat (length cs) = n ∧ m = run cs new_map.

(** As long as fewer calls than this have been made on a map, the [size_t]
    computations of [Insert] stay below 2^64 ([run_in_range]). *)
Definition max_calls : Z := 2 ^ 57.

(** The states of a map on which fewer than [max_calls] calls were made. *)
Definition reachable (m : ConcurrentHashMap) : Prop :=
  ∃ n, n < max_calls ∧ reachable_in n m.

(** ** Abstract contents and the representation invariant *)

Definition entries (m : ConcurrentHashMap) : list (K * V) := concat (data_ m).

Definition contains (m : ConcurrentHashMap) (key : K) : Prop :=
  key ∈ (entries m).*1.

(** Every entry sits in the bucket its hash selects. *)
Definition placed (cap : Z) (d : list bucket) : Prop :=
  ∀ (i : nat) l e, d !! i = Some l → e ∈ l → hasher e.1 mod cap = Z.of_nat i.

(** The representation invariant: the capacity is [kMutexesCount] after
    some number of quadruplings, there are as many buckets, every entry is
    in the bucket of its hash, no key occurs twice, and [size_] counts the
    entries. *)
Record wf (m : ConcurrentHashMap) : Prop := mkWf {
  wf_growth : ∃ g : nat, capacity_ m = kMutexesCount * 4 ^ Z.of_nat g;
  wf_length : Z.of_nat (length (data_ m)) = capacity_ m;
  wf_placed : placed (capacity_ m) (data_ m);
  wf_unique : NoDup (entries m).*1;
  wf_size : size_ m = Z.of_nat (length (entries m));
  wf_size_t : size_ m < size_t_mod
}.

(** ** Absence of overflow *)

(** The two [size_t] computations of [Insert], [capacity_ << 2] and
    [++size_], stay below 2^64 in state [m]. *)
Definition no_overflow (m : ConcurrentHashMap) : Prop :=
  4 * capacity_ m < size_t_mod ∧ size_ m + 1 < size_t_mod.

(** [no_overflow] holds in every state a run of [cs] from [m] makes a call in. *)
Fixpoint in_range (cs : list call) (m : ConcurrentHashMap) : Prop :=
  match cs with
  | [] => True
  | c :: cs => no_overflow m ∧ in_range cs (exec c m).2
  end.

(** What [n] calls can have made of a map: at most [n] entries, and a
    capacity that growth has kept below 32 times their number. *)
Definition within (n : Z) (m : ConcurrentHashMap) : Prop :=
  wf m ∧ size_ m ≤ n ∧ capacity_ m ≤ Z.max kMutexesCount (32 * n).

(** ** Vocabulary of the statements *)

(** A call that neither erases [key] nor clears the map. *)
Definition keeps (key : K) (c : call) : Prop :=
  match c with
  | CallErase key' => key' ≠ key
  | CallClear => False
  | _ => True
  end.

(** The calls that insert the pairs of [kvs] in order. *)
Definition insert_calls (kvs : list (K * V)) : list call :=
  (λ e, CallInsert e.1 e.2) <$> kvs.

(** The state after inserting the first [n] pairs of [kvs] into a fresh map. *)
Definition filled (kvs : list (K * V)) (n : nat) : ConcurrentHashMap :=
  run (insert_calls (take n kvs)) new_map.

Definition is_insert (c : call) : bool :=
  match c with CallInsert _ _ => true | _ => false end.

Definition is_erase (c : call) : bool :=
  match c with CallErase _ => true | _ => false end.

Definition returned_true (r : result answer) : bool :=
  match r with Returns (AnsBool true) => true | _ => false end.

(** How many calls of the kind [sel] returned [true] in a run of [cs]
    from [m]. *)
Fixpoint successes (sel : call → bool) (cs : list call)
    (m : ConcurrentHashMap) : Z :=
  match cs with
  | [] => 0
  | c :: cs =>
      (if sel c && returned_true (exec c m).1 then 1 else 0)
      + successes sel cs (exec c m).2
  end.

(** ** The load factor *)


(** ** The constructors *)

Definition kDefaultConcurrencyLevel : Z := 8.
Definition kUndefinedSize : Z := -1.

(** [ConcurrentHashMap(int, int, const Hash&)]: the two [int]s are not
    even named. *)
Definition construct_sized_striped (expected_size concurrency_level : Z)
  : ConcurrentHashMap :=
  {| data_ := replicate (Z.to_nat kMutexesCount) [];
     size_ := 0;
     capacity_ := kMutexesCount |}.

(** [ConcurrentHashMap(int expected_size, const Hash&)]. *)
Definition construct_sized (expected_size : Z) : ConcurrentHashMap :=
  construct_sized_striped expected_size kDefaultConcurrencyLevel.

(** [ConcurrentHashMap(const Hash&)]. *)
Definition construct : ConcurrentHashMap := construct_sized kUndefinedSize.

End Model.

(** * The mutexes

    The same member functions with their [lock] and [unlock] calls: each
    returns, next to its result, the sequence of mutex operations and
    accesses to [data_] it performs when run alone. *)

Inductive mutex : Type :=
| rehash_mutex_
| mutexes_ (i : Z).

Global Instance mutex_eq_dec : EqDecision mutex.
Proof. solve_decision. Defined.

Inductive event : Type :=
| Lock (mu : mutex)
| Unlock (mu : mutex)
| Touch (id : Z)   (* [data_[id]] is read or written *)
| Swap.            (* [capacity_] and [data_] are replaced as a whole *)

Definition traced (A : Type) : Type := list event * A.

Global Instance traced_ret : MRet traced := λ A a, ([], a).

Global Instance traced_bind : MBind traced :=
  λ A B f x, let '(t1, a) := x in let '(t2, b) := f a in (t1 ++ t2, b).

Definition emit (ev : event) : traced () := ([ev], ()).

(** The member [mutexes_count_], set to [kMutexesCount] by the constructor. *)
Definition mutexes_count_ : Z := kMutexesCount.

(** [for (size_t i = 0; i < mutexes_count_; ++i) mutexes_[i].lock();]
    from index [i] on, [n] iterations left. *)
Fixpoint lock_up (i : Z) (n : nat) : traced () :=
  match n with
  | O => mret ()
  | S n => emit (Lock (mutexes_ i)) ;; lock_up (i + 1) n
  end.

(** [for (size_t i = ...; i > 0; --i) mutexes_[i].unlock();] from index
    [i] down. *)
Fixpoint unlock_down (i : nat) : traced () :=
  match i with
  | O => mret ()
  | S j => emit (Unlock (mutexes_ (Z.of_nat i))) ;; unlock_down j
  end.

Definition lock_all : traced () := lock_up 0 (Z.to_nat mutexes_count_).

Definition unlock_all : traced () :=
  unlock_down (Z.to_nat (mutexes_count_ - 1)) ;; emit (Unlock (mutexes_ 0)).

(** The lock order: the rehash mutex first, then the stripes by index. *)
Definition rank (mu : mutex) : Z :=
  match mu with
  | rehash_mutex_ => -1
  | mutexes_ i => i
  end.

(** Runs a sequence of events from the set [held] of mutexes held and gives
    the set held at its end, or [None] when an event breaks a rule: a
    mutex is locked only while every mutex held has a smaller rank (so
    never while it is held itself); only a held mutex is unlocked; bucket
    [id] is touched only under the stripe mutex [id mod mutexes_count_];
    [data_] is replaced only under the rehash mutex and every stripe
    mutex. *)
Fixpoint replay (held : list mutex) (t : list event) : option (list mutex) :=
  match t with
  | [] => Some held
  | Lock mu :: t =>
      if forallb (λ h, rank h <? rank mu) held
      then replay (mu :: held) t else None
  | Unlock mu :: t =>
      if bool_decide (mu ∈ held)
      then replay (filter (λ h, h ≠ mu) held) t else None
  | Touch id :: t =>
      if bool_decide (mutexes_ (id mod mutexes_count_) ∈ held)
      then replay held t else None
  | Swap :: t =>
      if bool_decide (rehash_mutex_ ∈ held)
         && forallb (λ i, bool_decide (mutexes_ i ∈ held))
                    (seqZ 0 mutexes_count_)
      then replay held t else None
  end.

Definition is_lock_event (ev : event) : bool :=
  match ev with
  | Lock _ | Unlock _ => true
  | _ => false
  end.

Section Locking.

Context {K V : Type}.
Context {K_eq_dec : EqDecision K} {K_hash : Hash K} {V_init : ValueInit V}.

Local Abbreviation Map := (@ConcurrentHashMap K V).

(** [Rehash] is entered with the rehash mutex held by [Insert]. *)
Definition Rehash_traced (m : Map) : traced Map :=
  lock_all ;;
  emit Swap ;;
  unlock_all ;;
  mret (Rehash m).

(** The load-factor test of [Insert] with its use of the rehash mutex. *)
Definition grow_if_loaded_traced (m : Map) : traced Map :=
  if load_exceeded (capacity_ m) (size_ m) then
    emit (Lock rehash_mutex_) ;;
    m ← (if load_exceeded (capacity_ m) (size_ m)
         then Rehash_traced m else mret m);
    emit (Unlock rehash_mutex_) ;;
    mret m
  else mret m.

Definition Insert_traced (key : K) (value : V) (m : Map) : traced (bool * Map) :=
  m ← grow_if_loaded_traced m;
  let mutex_id := hasher key mod mutexes_count_ in
  emit (Lock (mutexes_ mutex_id)) ;;
  let data_id := hasher key mod capacity_ m in
  emit (Touch data_id) ;;
  match FindInList m data_id key with
  | Some _ =>
      emit (Unlock (mutexes_ mutex_id)) ;;
      mret (false, m)
  | None =>
      emit (Touch data_id) ;;
      emit (Unlock (mutexes_ mutex_id)) ;;
      mret (true, {| data_ := push_back data_id (key, value) (data_ m);
                     size_ := wrap (size_ m + 1);
                     capacity_ := capacity_ m |})
  end.

Definition Erase_traced (key : K) (m : Map) : traced (bool * Map) :=
  let mutex_id := hasher key mod mutexes_count_ in
  emit (Lock (mutexes_ mutex_id)) ;;
  let data_id := hasher key mod capacity_ m in
  emit (Touch data_id) ;;
  match FindInList m data_id key with
  | Some (it, _) =>
      emit (Touch data_id) ;;
      emit (Unlock (mutexes_ mutex_id)) ;;
      mret (true, {| data_ := alter (delete it) (Z.to_nat data_id) (data_ m);
                     size_ := wrap (size_ m - 1);
                     capacity_ := capacity_ m |})
  | None =>
      emit (Unlock (mutexes_ mutex_id)) ;;
      mret (false, m)
  end.

Definition Clear_traced (m : Map) : traced Map :=
  emit (Lock rehash_mutex_) ;;
  lock_all ;;
  emit Swap ;;
  unlock_all ;;
  emit (Unlock rehash_mutex_) ;;
  mret (Clear m).

Definition Find_traced (key : K) (m : Map) : traced (bool * V) :=
  let mutex_id := hasher key mod mutexes_count_ in
  emit (Lock (mutexes_ mutex_id)) ;;
  let data_id := hasher key mod capacity_ m in
  emit (Touch data_id) ;;
  emit (Unlock (mutexes_ mutex_id)) ;;
  mret (Find key m).

(** The [lock_guard] unlocks also when [At] throws. *)
Definition At_traced (key : K) (m : Map) : traced (result V) :=
  let mutex_id := hasher key mod mutexes_count_ in
  emit (Lock (mutexes_ mutex_id)) ;;
  let data_id := hasher key mod capacity_ m in
  emit (Touch data_id) ;;
  emit (Unlock (mutexes_ mutex_id)) ;;
  mret (At key m).

(** [Size] takes no mutex. *)
Definition Size_traced (m : Map) : traced Z := mret (Size m).

Definition exec_traced (c : call) (m : Map) : traced (result answer * Map) :=
  match c with
  | CallInsert key value =>
      r ← Insert_traced key value m; mret (Returns (AnsBool r.1), r.2)
  | CallErase key =>
      r ← Erase_traced key m; mret (Returns (AnsBool r.1), r.2)
  | CallClear => m' ← Clear_traced m; mret (Returns AnsVoid, m')
  | CallFind key =>
      r ← Find_traced key m; mret (Returns (AnsFound r), m)
  | CallAt key =>
      r ← At_traced key m;
      mret (match r with
            | Returns v => (Returns (AnsValue v), m)
            | Throws e => (Throws e, m)
            end)
  | CallSize => n ← Size_traced m; mret (Returns (AnsSize n), m)
  end.

End Locking.

(** ** [ConcurrentHashMap<int, int>] with [std::hash<int>] *)

Module IntMap.

(** [std::hash<int>] converts the key to [size_t]. *)
#[global] Instance hash_int : Hash Z := λ key, wrap key.

(** [int{}] is 0. *)
#[global] Instance int_init : ValueInit Z := 0.

(** The pairs [(0, 0), (1, 10), ..., (n - 1, 10 * (n - 1))]. *)
Definition pairs (n : Z) : list (Z * Z) := (λ i, (i, 10 * i)) <$> seqZ 0 n.

(** A map holding the keys 0 to 56: the most a map holds at capacity 63. *)
Definition m57 : @ConcurrentHashMap Z Z :=
  run (insert_calls (pairs 57)) new_map.

(** The same with key 57 added: the map has grown. *)
Definition m58 : @ConcurrentHashMap Z Z :=
  run (insert_calls (pairs 58)) new_map.

(** Keys 1, 64 and 127 share bucket 1 of a map of capacity 63. *)
Definition calls3 : list (@call Z Z) :=
  [CallInsert 1 10; CallInsert 2 20; CallInsert 64 640; CallErase 2;
   CallInsert 127 1270].

Definition m3 : @ConcurrentHashMap Z Z := run calls3 new_map.

End IntMap.

(** * Correctness of the sequential model *)

(** ** The load test at the initial capacity *)

(** The literal is the correctly rounded quotient of 9 by 10. *)
Example kLoadFactor_literal :
  SFdiv prec emax (to_double 9) (to_double 10) = kLoadFactor.
Proof. vm_compute. reflexivity. Qed.

(** [63 * 0.9] is the double [0x1.c59999999999ap+5], a little above 56.7. *)
Example load_threshold_63 :
  SFmul prec emax (to_double 63) kLoadFactor
  = S754_finite false 7979815589747098 (-47).
Proof. vm_compute. reflexivity. Qed.

(** At the initial capacity the test first succeeds at size 57. *)
Lemma load_exceeded_63_below s : 0 <= s < 57 -> load_exceeded 63 s = false.
Proof.
  intros Hs. rewrite <- (Z2Nat.id s) by lia.
  assert (Hn : (Z.to_nat s < 57)%nat) by lia.
  revert Hn. generalize (Z.to_nat s). intros n Hn.
  do 57 (destruct n as [|n]; [by vm_compute|]). lia.
Qed.

Lemma load_exceeded_63_57 : load_exceeded 63 57 = true.
Proof. by vm_compute. Qed.

(** ** Rounding to double precision *)

Lemma digits2_pos_bounds p :
  2 ^ (Z.pos (digits2_pos p) - 1) <= Z.pos p < 2 ^ Z.pos (digits2_pos p).
Proof.
  induction p as [p IH|p IH|]; simpl digits2_pos.
  - rewrite Pos2Z.inj_succ, Z.pow_succ_r by lia.
    replace (Z.succ (Z.pos (digits2_pos p)) - 1)
      with (Z.succ (Z.pos (digits2_pos p) - 1)) by lia.
    rewrite Z.pow_succ_r by lia. lia.
  - rewrite Pos2Z.inj_succ, Z.pow_succ_r by lia.
    replace (Z.succ (Z.pos (digits2_pos p)) - 1)
      with (Z.succ (Z.pos (digits2_pos p) - 1)) by lia.
    rewrite Z.pow_succ_r by lia. lia.
  - simpl. lia.
Qed.

Lemma digits2_pos_lower p n : 0 <= n -> 2 ^ n <= Z.pos p -> n < Z.pos (digits2_pos p).
Proof.
  intros Hn Hp. destruct (digits2_pos_bounds p) as [_ Hu].
  apply (Z.pow_lt_mono_r_iff 2); lia.
Qed.

Lemma digits2_pos_upper p n : 0 <= n -> Z.pos p < 2 ^ n -> Z.pos (digits2_pos p) <= n.
Proof.
  intros Hn Hp. destruct (digits2_pos_bounds p) as [Hl _].
  assert (Z.pos (digits2_pos p) - 1 < n); [|lia].
  apply (Z.pow_lt_mono_r_iff 2); lia.
Qed.

Lemma shr_1_m mrs : 0 <= shr_m mrs -> shr_m (shr_1 mrs) = shr_m mrs / 2.
Proof.
  destruct mrs as [m r s]. simpl.
  destruct m as [|[p|p|]|p]; intros Hm; simpl shr_m.
  - reflexivity.
  - apply (Z.div_unique _ _ _ 1); lia.
  - apply (Z.div_unique _ _ _ 0); lia.
  - reflexivity.
  - lia.
Qed.

Lemma iter_pos_shr_1_m k mrs :
  0 <= shr_m mrs ->
  shr_m (SpecFloat.iter_pos shr_1 k mrs) = shr_m mrs / 2 ^ Z.pos k.
Proof.
  revert mrs. induction k as [k IH|k IH|]; intros mrs Hm; simpl SpecFloat.iter_pos.
  - assert (H1 : 0 <= shr_m (shr_1 mrs)).
    { rewrite shr_1_m by done. apply Z.div_pos; lia. }
    assert (H2 : 0 <= shr_m (SpecFloat.iter_pos shr_1 k (shr_1 mrs))).
    { rewrite IH by done. apply Z.div_pos; lia. }
    rewrite IH, IH, shr_1_m by done.
    rewrite !Z.div_div by lia. f_equal.
    replace (Z.pos k~1) with (1 + Z.pos k + Z.pos k) by lia.
    rewrite !Z.pow_add_r by lia. ring.
  - assert (H2 : 0 <= shr_m (SpecFloat.iter_pos shr_1 k mrs)).
    { rewrite IH by done. apply Z.div_pos; lia. }
    rewrite IH, IH by done. rewrite Z.div_div by lia. f_equal.
    replace (Z.pos k~0) with (Z.pos k + Z.pos k) by lia.
    rewrite !Z.pow_add_r by lia. ring.
  - rewrite shr_1_m by done. reflexivity.
Qed.

Lemma shr_exact m e n :
  0 <= m -> 0 <= n ->
  shr_m (shr (Build_shr_record m false false) e n).1 = m / 2 ^ n /\
  (shr (Build_shr_record m false false) e n).2 = e + n.
Proof.
  intros Hm Hn. destruct n as [|k|k]; simpl; [|..|lia].
  - rewrite Z.div_1_r. lia.
  - split; [|done]. by rewrite iter_pos_shr_1_m.
Qed.

Lemma round_nearest_even_range m l :
  m <= round_nearest_even m l <= m + 1.
Proof. destruct l as [|[]]; simpl; try destruct (Z.even m); lia. Qed.

Lemma fexp_normal e : -1021 <= e -> fexp prec emax e = e - 53.
Proof. unfold fexp, emin, prec, emax. lia. Qed.

(** Rounding a mantissa of at least 53 bits whose result is a normal
    number: the result has a 53-bit mantissa, and its exponent is the one
    that drops the extra bits, or one more after a carry. *)
Lemma binary_round_aux_normal mx ex :
  let d := Z.pos (digits2_pos mx) in
  53 <= d -> -1074 <= ex + d - 53 -> ex + d - 52 <= 971 ->
  exists m e,
    binary_round_aux prec emax false (Z.pos mx) ex loc_Exact
      = S754_finite false m e /\
    2 ^ 52 <= Z.pos m < 2 ^ 53 /\
    ex + d - 53 <= e <= ex + d - 52.
Proof.
  intros d Hd Hlo Hhi. destruct (digits2_pos_bounds mx) as [Hl Hu]. fold d in Hl, Hu.
  unfold binary_round_aux, shr_fexp. simpl Zdigits2. fold d.
  rewrite fexp_normal by lia. simpl shr_record_of_loc.
  destruct (shr_exact (Z.pos mx) ex (d + ex - 53 - ex)) as [Hm1 He1]; [lia..|].
  destruct (shr _ ex _) as [mrs1 e1]. simpl in Hm1, He1.
  replace (d + ex - 53 - ex) with (d - 53) in Hm1, He1 by lia.
  assert (Hpow : 2 ^ d = 2 ^ 53 * 2 ^ (d - 53)).
  { rewrite <- Z.pow_add_r by lia. f_equal. lia. }
  assert (Hpow' : 2 ^ (d - 1) = 2 ^ 52 * 2 ^ (d - 53)).
  { rewrite <- Z.pow_add_r by lia. f_equal. lia. }
  assert (Hp : 0 < 2 ^ (d - 53)) by (apply Z.pow_pos_nonneg; lia).
  assert (Hr1 : 2 ^ 52 <= shr_m mrs1 < 2 ^ 53).
  { rewrite Hm1. split.
    - apply Z.div_le_lower_bound; lia.
    - apply Z.div_lt_upper_bound; lia. }
  pose proof (round_nearest_even_range (shr_m mrs1) (loc_of_shr_record mrs1)) as Hr2.
  destruct (round_nearest_even _ _) as [|q|q] eqn:Eq; [lia| |lia].
  simpl Zdigits2.
  assert (Hq : 53 <= Z.pos (digits2_pos q) <= 54).
  { split.
    - pose proof (digits2_pos_lower q 52). lia.
    - apply digits2_pos_upper; lia. }
  rewrite fexp_normal by lia. simpl shr_record_of_loc.
  destruct (shr_exact (Z.pos q) e1 (Z.pos (digits2_pos q) + e1 - 53 - e1))
    as [Hm2 He2]; [lia..|].
  destruct (shr _ e1 _) as [mrs2 e2]. simpl in Hm2, He2.
  replace (Z.pos (digits2_pos q) + e1 - 53 - e1)
    with (Z.pos (digits2_pos q) - 53) in Hm2, He2 by lia.
  assert (Hr3 : 2 ^ 52 <= shr_m mrs2 < 2 ^ 53).
  { rewrite Hm2. destruct (decide (Z.pos (digits2_pos q) = 53)) as [E|E].
    - rewrite E. change (2 ^ (53 - 53)) with 1. rewrite Z.div_1_r.
      destruct (digits2_pos_bounds q) as [_ Hq']. rewrite E in Hq'. lia.
    - replace (Z.pos (digits2_pos q)) with 54 by lia.
      change (2 ^ (54 - 53)) with 2.
      destruct (digits2_pos_bounds q) as [Hq' _].
      replace (Z.pos (digits2_pos q)) with 54 in Hq' by lia.
      change (54 - 1) with 53 in Hq'.
      assert (Z.pos q = 2 ^ 53) as -> by lia. done. }
  destruct (shr_m mrs2) as [|m|m] eqn:Em; [lia| |lia].
  assert (Hle : (e2 <=? emax - prec) = true).
  { apply Z.leb_le. unfold emax, prec. lia. }
  rewrite Hle. exists m, e2. split_and!; [done|lia..].
Qed.

Lemma Pos_iter_xO p k : Z.pos (Pos.iter xO p k) = Z.pos p * 2 ^ Z.pos k.
Proof.
  induction k as [|k IH] using Pos.peano_ind.
  - simpl. lia.
  - rewrite Pos.iter_succ, Pos2Z.inj_xO, IH, Pos2Z.inj_succ, Z.pow_succ_r by lia.
    lia.
Qed.

(** [static_cast<double>] of a positive 64-bit integer is a normal number
    whose exponent follows the bit length of the integer. *)
Lemma to_double_pos p :
  Z.pos p < 2 ^ 64 ->
  exists m e,
    to_double (Z.pos p) = S754_finite false m e /\
    2 ^ 52 <= Z.pos m < 2 ^ 53 /\
    Z.pos (digits2_pos p) - 53 <= e <= Z.pos (digits2_pos p) - 52.
Proof.
  intros Hp. destruct (digits2_pos_bounds p) as [Hl Hu].
  assert (Hd : Z.pos (digits2_pos p) <= 64) by (apply digits2_pos_upper; lia).
  unfold to_double, binary_normalize, binary_round.
  rewrite fexp_normal by lia. unfold shl_align.
  destruct (Z.pos (digits2_pos p) + 0 - 53 - 0) as [|k|k] eqn:Ek.
  - destruct (binary_round_aux_normal p 0) as (m & e & -> & Hm & He); [lia..|].
    exists m, e. split_and!; [done|lia..].
  - destruct (binary_round_aux_normal p 0) as (m & e & -> & Hm & He); [lia..|].
    exists m, e. split_and!; [done|lia..].
  - pose proof (Pos_iter_xO p k) as Hz.
    assert (Hk : Z.pos k = 53 - Z.pos (digits2_pos p)) by lia.
    assert (H53 : 2 ^ 53 = 2 ^ Z.pos (digits2_pos p) * 2 ^ Z.pos k).
    { rewrite <- Z.pow_add_r by lia. f_equal. lia. }
    assert (H52 : 2 ^ 52 = 2 ^ (Z.pos (digits2_pos p) - 1) * 2 ^ Z.pos k).
    { rewrite <- Z.pow_add_r by lia. f_equal. lia. }
    assert (Hpk : 0 < 2 ^ Z.pos k) by (apply Z.pow_pos_nonneg; lia).
    assert (Hdz : Z.pos (digits2_pos (Pos.iter xO p k)) = 53).
    { apply Z.le_antisymm.
      - apply digits2_pos_upper; [lia|]. rewrite Hz, H53. nia.
      - pose proof (digits2_pos_lower (Pos.iter xO p k) 52) as Hlow.
        assert (2 ^ 52 <= Z.pos (Pos.iter xO p k)); [|lia].
        rewrite Hz, H52. nia. }
    destruct (binary_round_aux_normal (Pos.iter xO p k)
                (Z.pos (digits2_pos p) + 0 - 53))
      as (m & e & -> & Hm & He); rewrite ?Hdz; [lia..|].
    rewrite Hdz in He. exists m, e. split_and!; [done|lia..].
Qed.

(** When the load test succeeds the capacity is below eight times the size. *)
Lemma load_exceeded_bound c s :
  0 < c < 2 ^ 64 -> 0 <= s < 2 ^ 64 -> load_exceeded c s = true -> c < 8 * s.
Proof.
  intros Hc Hs. destruct c as [|pc|pc]; [lia| |lia].
  destruct (to_double_pos pc) as (mc & ec & Ec & Hmc & Hec); [lia|].
  unfold load_exceeded. rewrite Ec. unfold SFmul, kLoadFactor. simpl xorb.
  set (m0 := 8106479329266893%positive).
  assert (Hm0 : 2 ^ 52 <= Z.pos m0 < 2 ^ 53) by (unfold m0; lia).
  assert (Hprod : 105 <= Z.pos (digits2_pos (mc * m0)) <= 106).
  { split.
    - pose proof (digits2_pos_lower (mc * m0) 104) as Hlow.
      assert (2 ^ 104 <= Z.pos (mc * m0)); [|lia].
      rewrite Pos2Z.inj_mul. change (2 ^ 104) with (2 ^ 52 * 2 ^ 52). nia.
    - apply digits2_pos_upper; [lia|].
      rewrite Pos2Z.inj_mul. change (2 ^ 106) with (2 ^ 53 * 2 ^ 53). nia. }
  pose proof (digits2_pos_upper pc 64) as Hdc.
  destruct (binary_round_aux_normal (mc * m0) (ec + -53))
    as (mp & ep & -> & Hmp & Hep); [lia..|].
  destruct s as [|ps|ps]; [done| |lia].
  destruct (to_double_pos ps) as (ms & es & -> & Hms & Hes); [lia|].
  unfold SFleb, SFcompare.
  destruct (Z.compare_spec ep es) as [E|E|E]; [| |done]; intros _.
  all: destruct (digits2_pos_bounds pc) as [_ Hpc].
  all: destruct (digits2_pos_bounds ps) as [Hps _].
  all: assert (Hdd : Z.pos (digits2_pos pc) <= Z.pos (digits2_pos ps) - 1 + 3) by lia.
  all: assert (Hpw : 2 ^ Z.pos (digits2_pos pc)
                     <= 2 ^ (Z.pos (digits2_pos ps) - 1 + 3))
         by (apply Z.pow_le_mono_r; lia).
  all: rewrite Z.pow_add_r in Hpw by lia.
  all: change (2 ^ 3) with 8 in Hpw; lia.
Qed.

(** The value of the rounded number is within one unit of its last place
    of the value rounded. *)
Lemma binary_round_aux_value mx ex :
  let d := Z.pos (digits2_pos mx) in
  53 <= d -> -1074 <= ex + d - 53 -> ex + d - 52 <= 971 ->
  exists m e,
    binary_round_aux prec emax false (Z.pos mx) ex loc_Exact
      = S754_finite false m e /\
    2 ^ 52 <= Z.pos m < 2 ^ 53 /\
    ex + d - 53 <= e <= ex + d - 52 /\
    Z.pos mx - 2 ^ (e - ex) <= Z.pos m * 2 ^ (e - ex) <= Z.pos mx + 2 ^ (e - ex).
Proof.
  intros d Hd Hlo Hhi. destruct (digits2_pos_bounds mx) as [Hl Hu]. fold d in Hl, Hu.
  unfold binary_round_aux, shr_fexp. simpl Zdigits2. fold d.
  rewrite fexp_normal by lia. simpl shr_record_of_loc.
  destruct (shr_exact (Z.pos mx) ex (d + ex - 53 - ex)) as [Hm1 He1]; [lia..|].
  destruct (shr _ ex _) as [mrs1 e1]. simpl in Hm1, He1.
  replace (d + ex - 53 - ex) with (d - 53) in Hm1, He1 by lia.
  assert (Hpow : 2 ^ d = 2 ^ 53 * 2 ^ (d - 53)).
  { rewrite <- Z.pow_add_r by lia. f_equal. lia. }
  assert (Hpow' : 2 ^ (d - 1) = 2 ^ 52 * 2 ^ (d - 53)).
  { rewrite <- Z.pow_add_r by lia. f_equal. lia. }
  assert (Hp : 0 < 2 ^ (d - 53)) by (apply Z.pow_pos_nonneg; lia).
  assert (Hr1 : 2 ^ 52 <= shr_m mrs1 < 2 ^ 53).
  { rewrite Hm1. split.
    - apply Z.div_le_lower_bound; lia.
    - apply Z.div_lt_upper_bound; lia. }
  assert (Hfl : shr_m mrs1 * 2 ^ (d - 53) <= Z.pos mx
                < (shr_m mrs1 + 1) * 2 ^ (d - 53)).
  { rewrite Hm1. split.
    - rewrite Z.mul_comm. apply Z.mul_div_le. lia.
    - rewrite Z.mul_comm. apply Z.mul_succ_div_gt. lia. }
  pose proof (round_nearest_even_range (shr_m mrs1) (loc_of_shr_record mrs1)) as Hr2.
  destruct (round_nearest_even _ _) as [|q|q] eqn:Eq; [lia| |lia].
  simpl Zdigits2.
  assert (Hq : 53 <= Z.pos (digits2_pos q) <= 54).
  { split.
    - pose proof (digits2_pos_lower q 52). lia.
    - apply digits2_pos_upper; lia. }
  rewrite fexp_normal by lia. simpl shr_record_of_loc.
  destruct (shr_exact (Z.pos q) e1 (Z.pos (digits2_pos q) + e1 - 53 - e1))
    as [Hm2 He2]; [lia..|].
  destruct (shr _ e1 _) as [mrs2 e2]. simpl in Hm2, He2.
  replace (Z.pos (digits2_pos q) + e1 - 53 - e1)
    with (Z.pos (digits2_pos q) - 53) in Hm2, He2 by lia.
  assert (Hval : shr_m mrs2 * 2 ^ (Z.pos (digits2_pos q) - 53) = Z.pos q /\
                 2 ^ 52 <= shr_m mrs2 < 2 ^ 53).
  { rewrite Hm2. destruct (decide (Z.pos (digits2_pos q) = 53)) as [E|E].
    - rewrite E. change (2 ^ (53 - 53)) with 1. rewrite Z.div_1_r.
      destruct (digits2_pos_bounds q) as [_ Hq']. rewrite E in Hq'. lia.
    - replace (Z.pos (digits2_pos q)) with 54 by lia.
      change (2 ^ (54 - 53)) with 2.
      destruct (digits2_pos_bounds q) as [Hq' _].
      replace (Z.pos (digits2_pos q)) with 54 in Hq' by lia.
      change (54 - 1) with 53 in Hq'.
      assert (Z.pos q = 2 ^ 53) as -> by lia. done. }
  destruct Hval as [Hval Hr3].
  destruct (shr_m mrs2) as [|m|m] eqn:Em; [lia| |lia].
  assert (Hle : (e2 <=? emax - prec) = true).
  { apply Z.leb_le. unfold emax, prec. lia. }
  rewrite Hle. exists m, e2. split_and!; [done|lia..| |].
  all: replace (e2 - ex)
         with ((Z.pos (digits2_pos q) - 53) + (d - 53)) by lia.
  all: rewrite Z.pow_add_r by lia.
  all: assert (Hp2 : 1 <= 2 ^ (Z.pos (digits2_pos q) - 53))
         by (apply (Z.pow_le_mono_r 2 0); lia).
  all: rewrite Z.mul_assoc, Hval; nia.
Qed.

Lemma to_double_value p :
  Z.pos p < 2 ^ 64 ->
  exists m e,
    to_double (Z.pos p) = S754_finite false m e /\
    2 ^ 52 <= Z.pos m < 2 ^ 53 /\
    Z.pos (digits2_pos p) - 53 <= e <= Z.pos (digits2_pos p) - 52 /\
    Z.pos p * 2 ^ 53 - 2 ^ (e + 53) <= Z.pos m * 2 ^ (e + 53)
      <= Z.pos p * 2 ^ 53 + 2 ^ (e + 53).
Proof.
  intros Hp. destruct (digits2_pos_bounds p) as [Hl Hu].
  assert (Hd : Z.pos (digits2_pos p) <= 64) by (apply digits2_pos_upper; lia).
  unfold to_double, binary_normalize, binary_round.
  rewrite fexp_normal by lia. unfold shl_align.
  assert (Hbig : 53 <= Z.pos (digits2_pos p) ->
    exists m e,
      binary_round_aux prec emax false (Z.pos p) 0 loc_Exact
        = S754_finite false m e /\
      2 ^ 52 <= Z.pos m < 2 ^ 53 /\
      Z.pos (digits2_pos p) - 53 <= e <= Z.pos (digits2_pos p) - 52 /\
      Z.pos p * 2 ^ 53 - 2 ^ (e + 53) <= Z.pos m * 2 ^ (e + 53)
        <= Z.pos p * 2 ^ 53 + 2 ^ (e + 53)).
  { intros H53.
    destruct (binary_round_aux_value p 0) as (m & e & -> & Hm & He & Hv); [lia..|].
    exists m, e. split_and!; [done|lia..| |].
    all: rewrite Z.sub_0_r in Hv; rewrite Z.pow_add_r by lia; nia. }
  destruct (Z.pos (digits2_pos p) + 0 - 53 - 0) as [|k|k] eqn:Ek.
  - apply Hbig. lia.
  - apply Hbig. lia.
  - pose proof (Pos_iter_xO p k) as Hz.
    assert (Hk : Z.pos k = 53 - Z.pos (digits2_pos p)) by lia.
    assert (H53 : 2 ^ 53 = 2 ^ Z.pos (digits2_pos p) * 2 ^ Z.pos k).
    { rewrite <- Z.pow_add_r by lia. f_equal. lia. }
    assert (H52 : 2 ^ 52 = 2 ^ (Z.pos (digits2_pos p) - 1) * 2 ^ Z.pos k).
    { rewrite <- Z.pow_add_r by lia. f_equal. lia. }
    assert (Hpk : 0 < 2 ^ Z.pos k) by (apply Z.pow_pos_nonneg; lia).
    assert (Hpd : 0 < 2 ^ Z.pos (digits2_pos p)) by (apply Z.pow_pos_nonneg; lia).
    assert (Hdz : Z.pos (digits2_pos (Pos.iter xO p k)) = 53).
    { apply Z.le_antisymm.
      - apply digits2_pos_upper; [lia|]. rewrite Hz, H53. nia.
      - pose proof (digits2_pos_lower (Pos.iter xO p k) 52) as Hlow.
        assert (2 ^ 52 <= Z.pos (Pos.iter xO p k)); [|lia].
        rewrite Hz, H52. nia. }
    destruct (binary_round_aux_value (Pos.iter xO p k)
                (Z.pos (digits2_pos p) + 0 - 53))
      as (m & e & -> & Hm & He & Hv); rewrite ?Hdz; [lia..|].
    rewrite Hdz in He. exists m, e. split_and!; [done|lia..| |].
    all: replace (e - (Z.pos (digits2_pos p) + 0 - 53))
           with (e + Z.pos k) in Hv by lia.
    all: rewrite Hz in Hv.
    all: replace (e + 53) with ((e + Z.pos k) + Z.pos (digits2_pos p)) by lia.
    all: rewrite Z.pow_add_r by lia.
    all: rewrite H53; nia.
Qed.

(** The last place of the double of [p], scaled by 2^105, against [p]
    itself. *)
Lemma ulp_scale p e :
  e <= Z.pos (digits2_pos p) - 52 ->
  0 <= e + 52 ->
  2 ^ (e + 52) * 2 ^ 52 <= Z.pos p * 2 ^ 53.
Proof.
  intros He He'. destruct (digits2_pos_bounds p) as [Hp _].
  assert (H : 2 ^ (e + 52) <= 2 * 2 ^ (Z.pos (digits2_pos p) - 1)); [|lia].
  rewrite <- (Z.pow_succ_r 2 (Z.pos (digits2_pos p) - 1)) by lia.
  apply Z.pow_le_mono_r; lia.
Qed.

(** When the load test fails the size is below 0.900001 times the
    capacity. *)
Lemma load_not_exceeded_bound c s :
  0 < c < 2 ^ 64 -> 0 <= s < 2 ^ 64 ->
  load_exceeded c s = false -> 1000000 * s < 900001 * c.
Proof.
  intros Hc Hs Hload. destruct (Z.lt_ge_cases (1000000 * s) (900001 * c)) as [|Hge]; [done|].
  exfalso. revert Hload.
  destruct c as [|pc|pc]; [lia| |lia]. destruct s as [|ps|ps]; [lia| |lia].
  destruct (to_double_value pc) as (mc & ec & Ec & Hmc & Hec & Hvc); [lia|].
  destruct (to_double_value ps) as (ms & es & Es & Hms & Hes & Hvs); [lia|].
  unfold load_exceeded. rewrite Ec, Es. unfold SFmul, kLoadFactor. simpl xorb.
  set (m0 := 8106479329266893%positive).
  assert (Hprod : 105 <= Z.pos (digits2_pos (mc * m0)) <= 106).
  { split.
    - pose proof (digits2_pos_lower (mc * m0) 104) as Hlow.
      assert (2 ^ 104 <= Z.pos (mc * m0)); [|lia].
      rewrite Pos2Z.inj_mul. change (2 ^ 104) with (2 ^ 52 * 2 ^ 52).
      unfold m0. nia.
    - apply digits2_pos_upper; [lia|].
      rewrite Pos2Z.inj_mul. change (2 ^ 106) with (2 ^ 53 * 2 ^ 53).
      unfold m0. nia. }
  pose proof (digits2_pos_upper pc 64) as Hdc.
  destruct (digits2_pos_bounds pc) as [Hpc _].
  destruct (binary_round_aux_value (mc * m0) (ec + -53))
    as (mp & ep & -> & Hmp & Hep & Hvp); [lia..|].
  rewrite Pos2Z.inj_mul in Hvp.
  (* all powers of two in terms of [B = 2 ^ (ec + 52)] *)
  set (B := 2 ^ (ec + 52)).
  assert (HB : 0 < B) by (apply Z.pow_pos_nonneg; lia).
  assert (HX : 2 ^ (ec + 53) = 2 * B).
  { unfold B. replace (ec + 53) with (1 + (ec + 52)) by lia.
    by rewrite Z.pow_add_r by lia. }
  assert (HA : B * 2 ^ 52 <= Z.pos pc * 2 ^ 53) by (apply ulp_scale; lia).
  rewrite HX in Hvc.
  set (K := 2 ^ (ep - (ec + -53))) in *.
  assert (HK : 2 ^ 52 <= K <= 2 ^ 54).
  { unfold K. split; apply Z.pow_le_mono_r; lia. }
  assert (HKX : 2 ^ (ep + 106) = K * (2 * B)).
  { unfold K, B. rewrite <- (Z.pow_succ_r 2 (ec + 52)) by lia.
    rewrite <- Z.pow_add_r by lia. f_equal. lia. }
  (* the product, scaled *)
  assert (HKB : 0 <= K * (2 * B)) by (apply Z.mul_nonneg_nonneg; lia).
  assert (HKB' : K * B <= 2 ^ 54 * B)
    by (apply Z.mul_le_mono_nonneg_r; lia).
  assert (HP : K * (Z.pos mp * (2 * B))
               <= Z.pos m0 * (Z.pos mc * (2 * B)) + K * (2 * B)).
  { destruct Hvp as [_ Hvp].
    apply (Z.mul_le_mono_nonneg_r _ _ (2 * B)) in Hvp; lia. }
  assert (HQ : 0 < 2 ^ (es + 106)) by (apply Z.pow_pos_nonneg; lia).
  assert (HS : Z.pos ps * 2 ^ 106 - 2 ^ (es + 106)
               <= Z.pos ms * 2 ^ (es + 106)).
  { replace (es + 106) with ((es + 53) + 53) by lia.
    rewrite Z.pow_add_r by lia. change (2 ^ 106) with (2 ^ 53 * 2 ^ 53). lia. }
  change (2 ^ 106) with (2 ^ 53 * 2 ^ 53) in HS.
  unfold SFleb, SFcompare.
  destruct (Z.compare_spec ep es) as [E|E|E]; [|done|].
  - subst es. rewrite HKX in HS, HQ.
    change (Pos.compare_cont Eq mp ms) with (mp ?= ms)%positive.
    destruct (Pos.compare_spec mp ms) as [E|E|E]; [done|done|].
    intros _.
    assert (H1 : (Z.pos ms + 1) * (K * (2 * B)) <= Z.pos mp * (K * (2 * B)))
      by (apply Z.mul_le_mono_nonneg_r; lia).
    unfold m0 in *. lia.
  - intros _.
    assert (HU : 2 * 2 ^ (es + 106) <= K * (2 * B)).
    { rewrite <- HKX. rewrite <- (Z.pow_succ_r 2 (es + 106)) by lia.
      apply Z.pow_le_mono_r; lia. }
    assert (H1 : Z.pos ms * 2 ^ (es + 106) <= 2 ^ 53 * 2 ^ (es + 106))
      by (apply Z.mul_le_mono_nonneg_r; lia).
    assert (H2 : 2 ^ 52 * (K * (2 * B)) <= Z.pos mp * (K * (2 * B)))
      by (apply Z.mul_le_mono_nonneg_r; lia).
    unfold m0 in *. lia.
Qed.

(** When the load test succeeds the size is above 0.899999 times the
    capacity. *)
Lemma load_exceeded_lower_bound c s :
  0 < c < 2 ^ 64 -> 0 <= s < 2 ^ 64 ->
  load_exceeded c s = true -> 899999 * c < 1000000 * s.
Proof.
  intros Hc Hs Hload. destruct (Z.lt_ge_cases (899999 * c) (1000000 * s)) as [|Hge]; [done|].
  exfalso. revert Hload.
  destruct c as [|pc|pc]; [lia| |lia].
  destruct (to_double_value pc) as (mc & ec & Ec & Hmc & Hec & Hvc); [lia|].
  unfold load_exceeded. rewrite Ec. unfold SFmul, kLoadFactor. simpl xorb.
  set (m0 := 8106479329266893%positive).
  assert (Hprod : 105 <= Z.pos (digits2_pos (mc * m0)) <= 106).
  { split.
    - pose proof (digits2_pos_lower (mc * m0) 104) as Hlow.
      assert (2 ^ 104 <= Z.pos (mc * m0)); [|lia].
      rewrite Pos2Z.inj_mul. change (2 ^ 104) with (2 ^ 52 * 2 ^ 52).
      unfold m0. nia.
    - apply digits2_pos_upper; [lia|].
      rewrite Pos2Z.inj_mul. change (2 ^ 106) with (2 ^ 53 * 2 ^ 53).
      unfold m0. nia. }
  pose proof (digits2_pos_upper pc 64) as Hdc.
  destruct (digits2_pos_bounds pc) as [Hpc _].
  destruct (binary_round_aux_value (mc * m0) (ec + -53))
    as (mp & ep & -> & Hmp & Hep & Hvp); [lia..|].
  rewrite Pos2Z.inj_mul in Hvp.
  destruct s as [|ps|ps]; [done| |lia].
  destruct (to_double_value ps) as (ms & es & -> & Hms & Hes & Hvs); [lia|].
  set (B := 2 ^ (ec + 52)).
  assert (HB : 0 < B) by (apply Z.pow_pos_nonneg; lia).
  assert (HX : 2 ^ (ec + 53) = 2 * B).
  { unfold B. replace (ec + 53) with (1 + (ec + 52)) by lia.
    by rewrite Z.pow_add_r by lia. }
  assert (HA : B * 2 ^ 52 <= Z.pos pc * 2 ^ 53) by (apply ulp_scale; lia).
  rewrite HX in Hvc.
  set (K := 2 ^ (ep - (ec + -53))) in *.
  assert (HK : 2 ^ 52 <= K <= 2 ^ 54).
  { unfold K. split; apply Z.pow_le_mono_r; lia. }
  assert (HKX : 2 ^ (ep + 106) = K * (2 * B)).
  { unfold K, B. rewrite <- (Z.pow_succ_r 2 (ec + 52)) by lia.
    rewrite <- Z.pow_add_r by lia. f_equal. lia. }
  assert (HKB : 0 <= K * (2 * B)) by (apply Z.mul_nonneg_nonneg; lia).
  assert (HKB' : K * B <= 2 ^ 54 * B)
    by (apply Z.mul_le_mono_nonneg_r; lia).
  assert (HP : Z.pos m0 * (Z.pos mc * (2 * B)) - K * (2 * B)
               <= K * (Z.pos mp * (2 * B))).
  { destruct Hvp as [Hvp _].
    apply (Z.mul_le_mono_nonneg_r _ _ (2 * B)) in Hvp; lia. }
  assert (HQ : 0 < 2 ^ (es + 106)) by (apply Z.pow_pos_nonneg; lia).
  assert (HS : Z.pos ms * 2 ^ (es + 106)
               <= Z.pos ps * 2 ^ 106 + 2 ^ (es + 106)).
  { replace (es + 106) with ((es + 53) + 53) by lia.
    rewrite Z.pow_add_r by lia. change (2 ^ 106) with (2 ^ 53 * 2 ^ 53). lia. }
  change (2 ^ 106) with (2 ^ 53 * 2 ^ 53) in HS.
  unfold SFleb, SFcompare.
  destruct (Z.compare_spec ep es) as [E|E|E]; [| |done].
  - subst es. rewrite HKX in HS, HQ.
    change (Pos.compare_cont Eq mp ms) with (mp ?= ms)%positive.
    destruct (Pos.compare_spec mp ms) as [E|E|E]; [| |done]; intros _.
    all: assert (H1 : Z.pos mp * (K * (2 * B)) <= Z.pos ms * (K * (2 * B)))
           by (apply Z.mul_le_mono_nonneg_r; lia).
    all: unfold m0 in *; lia.
  - intros _.
    assert (HU : 2 * (K * (2 * B)) <= 2 ^ (es + 106)).
    { rewrite <- HKX. rewrite <- (Z.pow_succ_r 2 (ep + 106)) by lia.
      apply Z.pow_le_mono_r; lia. }
    assert (H1 : 2 ^ 52 * 2 ^ (es + 106) <= Z.pos ms * 2 ^ (es + 106))
      by (apply Z.mul_le_mono_nonneg_r; lia).
    assert (H2 : Z.pos mp * (K * (2 * B)) <= 2 ^ 53 * (K * (2 * B)))
      by (apply Z.mul_le_mono_nonneg_r; lia).
    unfold m0 in *. lia.
Qed.

(** X13: the load test of [Insert], computed in double precision, agrees
    with the exact ratio 9/10 to one part in a million over the whole range
    of [size_t]: when it succeeds the size is above 0.899999 times the
    capacity, when it fails the size is below 0.900001 times the
    capacity. *)
Theorem X13_load_test_accuracy c s :
  0 < c < 2 ^ 64 -> 0 <= s < 2 ^ 64 ->
  (load_exceeded c s = true -> 899999 * c < 1000000 * s) /\
  (load_exceeded c s = false -> 1000000 * s < 900001 * c).
Proof.
  intros Hc Hs. split.
  - by apply load_exceeded_lower_bound.
  - by apply load_not_exceeded_bound.
Qed.

Section Proofs.

Context {K V : Type}.
Context {K_eq_dec : EqDecision K} {K_hash : Hash K} {V_init : ValueInit V}.

Local Abbreviation bucket := (list (K * V)).
Local Abbreviation Map := (@ConcurrentHashMap K V).

Implicit Types (m : @ConcurrentHashMap K V) (k key : K) (v value : V).
Implicit Types (c : @call K V) (cs : list (@call K V)).
Implicit Types (e : K * V) (l es kvs : list (K * V)) (d nd : list (list (K * V))).

(** ** Vectors of chains *)

Lemma concat_alter_push (d : list bucket) (j : nat) (e : K * V) :
  (j < length d)%nat →
  concat (alter (λ l, l ++ [e]) j d) ≡ₚ e :: concat d.
Proof.
  revert j. induction d as [|b d IH]; intros [|j] Hj; simpl in *; try lia.
  - rewrite <- app_assoc. simpl. symmetry. apply Permutation_middle.
  - etrans; [apply Permutation_app_head, (IH j); lia|].
    symmetry. apply Permutation_middle.
Qed.

Lemma concat_alter_delete (d : list bucket) (j it : nat) b e :
  d !! j = Some b → b !! it = Some e →
  e :: concat (alter (delete it) j d) ≡ₚ concat d.
Proof.
  revert j. induction d as [|b' d IH]; intros [|j] Hj Hit; simplify_eq/=.
  - rewrite app_comm_cons. f_equiv. symmetry. by apply delete_Permutation.
  - rewrite Permutation_middle. apply Permutation_app_head. by apply IH.
Qed.

Lemma elem_of_concat (d : list bucket) e :
  e ∈ concat d ↔ ∃ (i : nat) l, d !! i = Some l ∧ e ∈ l.
Proof.
  induction d as [|b d IH]; simpl.
  - split; [by intros ?%elem_of_nil|]. by intros (i & l & ? & _).
  - rewrite elem_of_app, IH. split.
    + intros [He|(i & l & Hi & He)]; [by exists 0%nat, b|by exists (S i), l].
    + intros ([|i] & l & Hi & He); simplify_eq/=; eauto.
Qed.

(** ** Locating a key *)

Lemma wf_capacity_pos m : wf m → 0 < capacity_ m.
Proof.
  intros Hm. destruct (wf_growth m Hm) as [g ->].
  pose proof (Z.pow_pos_nonneg 4 (Z.of_nat g)). unfold kMutexesCount. lia.
Qed.

Lemma bucket_index m key : wf m → 0 ≤ hasher key mod capacity_ m < capacity_ m.
Proof. intros Hm. apply Z.mod_pos_bound, wf_capacity_pos, Hm. Qed.

Lemma chain_lookup m id :
  wf m → 0 ≤ id < capacity_ m → data_ m !! Z.to_nat id = Some (chain m id).
Proof.
  intros Hm Hid. unfold chain.
  destruct (data_ m !! Z.to_nat id) eqn:E; [done|].
  apply lookup_ge_None in E. pose proof (wf_length m Hm). lia.
Qed.

Lemma chain_of_lookup m (i : nat) l :
  data_ m !! i = Some l → chain m (Z.of_nat i) = l.
Proof. unfold chain. rewrite Nat2Z.id. by intros ->. Qed.

Lemma chain_member m id e : e ∈ chain m id → e ∈ entries m.
Proof.
  unfold chain. destruct (data_ m !! Z.to_nat id) eqn:E; simpl.
  - intros. apply elem_of_concat. eauto.
  - by intros ?%elem_of_nil.
Qed.

Lemma member_chain m k v :
  wf m → (k, v) ∈ entries m → (k, v) ∈ chain m (hasher k mod capacity_ m).
Proof.
  intros Hm (i & l & Hi & He)%elem_of_concat.
  pose proof (wf_placed m Hm i l (k, v) Hi He) as Hp. simpl in Hp.
  rewrite Hp. by rewrite (chain_of_lookup m i l Hi).
Qed.

Lemma NoDup_fst_unique (l : bucket) k v v' :
  NoDup l.*1 → (k, v) ∈ l → (k, v') ∈ l → v = v'.
Proof.
  induction l as [|[k0 v0] l IH]; csimpl; [by intros _ ?%elem_of_nil|].
  intros [Hk Hl]%NoDup_cons [He|He]%elem_of_cons [He'|He']%elem_of_cons;
    simplify_eq; try done.
  - destruct Hk. apply list_elem_of_fmap. by exists (k0, v').
  - destruct Hk. apply list_elem_of_fmap. by exists (k0, v).
  - eauto.
Qed.

Lemma entries_unique m k v v' :
  wf m → (k, v) ∈ entries m → (k, v') ∈ entries m → v = v'.
Proof.
  intros Hm. apply NoDup_fst_unique, (wf_unique m Hm).
Qed.

Lemma FindInList_found m id k it e :
  FindInList m id k = Some (it, e) →
  chain m id !! it = Some e ∧ e.1 = k ∧ e ∈ entries m.
Proof.
  intros (Hl & Hk & _)%list_find_Some. split_and!; [done..|].
  eapply chain_member, list_elem_of_lookup_2, Hl.
Qed.

Lemma FindInList_member m k v :
  wf m → (k, v) ∈ entries m →
  ∃ it, FindInList m (hasher k mod capacity_ m) k = Some (it, (k, v)).
Proof.
  intros Hm He. pose proof (member_chain m k v Hm He) as Hc.
  destruct (list_find_elem_of (λ e : K * V, e.1 = k) _ _ Hc eq_refl)
    as [[it [k' v']] Hf].
  exists it. unfold FindInList. rewrite Hf.
  apply FindInList_found in Hf as (_ & Hk & He'). simpl in Hk. subst k'.
  by rewrite (entries_unique m k v v' Hm He He').
Qed.

Lemma FindInList_absent m k :
  wf m → ¬ contains m k → FindInList m (hasher k mod capacity_ m) k = None.
Proof.
  intros Hm Hk. apply list_find_None, Forall_forall.
  intros [k' v'] He Heq. simpl in Heq. subst k'. apply Hk.
  apply list_elem_of_fmap. exists (k, v'). split; [done|].
  eapply chain_member, He.
Qed.

Lemma FindInList_None_absent m k :
  wf m → FindInList m (hasher k mod capacity_ m) k = None → ¬ contains m k.
Proof.
  intros Hm Hf ([k' v] & -> & He)%list_elem_of_fmap. simpl in *.
  destruct (FindInList_member m k' v Hm He) as [it Hit]. congruence.
Qed.

Global Instance contains_dec m k : Decision (contains m k).
Proof. unfold contains. apply _. Defined.

(** [Find] reads the abstract contents. *)
Lemma Find_member m k v : wf m → (k, v) ∈ entries m → Find k m = (true, v).
Proof.
  intros Hm He. unfold Find.
  by destruct (FindInList_member m k v Hm He) as [it ->].
Qed.

Lemma Find_absent m k : wf m → ¬ contains m k → Find k m = (false, V_default).
Proof. intros Hm Hk. unfold Find. by rewrite FindInList_absent. Qed.

Lemma Find_true m k v : Find k m = (true, v) → (k, v) ∈ entries m.
Proof.
  unfold Find.
  destruct (FindInList m _ k) as [[it [k' v']]|] eqn:Hf; [|done].
  intros [= <-]. by apply FindInList_found in Hf as (_ & <- & He).
Qed.

Lemma Find_false m k : wf m → (Find k m).1 = false → ¬ contains m k.
Proof.
  intros Hm. unfold Find.
  destruct (FindInList m _ k) as [[it e]|] eqn:Hf; [done|].
  intros _. by apply FindInList_None_absent.
Qed.

Lemma contains_Permutation m m' k :
  entries m ≡ₚ entries m' → contains m k ↔ contains m' k.
Proof. unfold contains. by intros ->. Qed.

Lemma Find_Permutation m m' k :
  wf m → wf m' → entries m ≡ₚ entries m' → Find k m = Find k m'.
Proof.
  intros Hm Hm' Hp. destruct (decide (contains m k)) as [Hk|Hk].
  - apply list_elem_of_fmap in Hk as ([k' v] & -> & He). simpl.
    rewrite (Find_member m k' v Hm He). symmetry.
    apply Find_member; [done|]. by rewrite <- Hp.
  - rewrite (Find_absent m k Hm Hk). symmetry.
    apply Find_absent; [done|]. by rewrite <- (contains_Permutation m m' k Hp).
Qed.

(** ** Redistribution into a new vector *)

Lemma foldl_chains {A} (f : A → K * V → A) (d : list bucket) a :
  foldl (λ a list, foldl f a list) a d = foldl f a (concat d).
Proof.
  revert a. induction d as [|l d IH]; intros a; simpl; [done|].
  by rewrite foldl_app, IH.
Qed.

Lemma push_back_length id e d : length (push_back id e d) = length d.
Proof. apply length_alter. Qed.

Lemma push_back_entries id e d :
  0 ≤ id < Z.of_nat (length d) → concat (push_back id e d) ≡ₚ e :: concat d.
Proof. intros. apply concat_alter_push. lia. Qed.

Lemma push_back_placed cap e d :
  placed cap d → 0 ≤ hasher e.1 mod cap →
  placed cap (push_back (hasher e.1 mod cap) e d).
Proof.
  intros Hd Hge i l e' Hi He'. unfold push_back in Hi.
  rewrite list_lookup_alter in Hi. case_decide as Hdec; [|by eauto].
  subst i. destruct (d !! _) as [l0|] eqn:E; simplify_eq/=.
  apply elem_of_app in He' as [He'|He']; [by eauto|].
  apply list_elem_of_singleton in He'. subst e'. by rewrite Z2Nat.id.
Qed.

Section redistribute.
Variable cap : Z.
Hypothesis cap_pos : 0 < cap.

(** The body of the inner loop of [Rehash]. *)
Let place := λ (nd : list bucket) (i : K * V),
  push_back (hasher i.1 mod cap) i nd.

Lemma redistribute_length es nd : length (foldl place nd es) = length nd.
Proof.
  revert nd. induction es as [|e es IH]; intros nd; simpl; [done|].
  rewrite IH. apply push_back_length.
Qed.

Lemma redistribute_entries es nd :
  Z.of_nat (length nd) = cap → concat (foldl place nd es) ≡ₚ es ++ concat nd.
Proof.
  revert nd. induction es as [|e es IH]; intros nd Hnd; simpl; [done|].
  rewrite IH by (unfold place; by rewrite push_back_length).
  unfold place. rewrite push_back_entries.
  - symmetry. apply Permutation_middle.
  - pose proof (Z.mod_pos_bound (hasher e.1) cap cap_pos). lia.
Qed.

Lemma redistribute_placed es nd :
  placed cap nd → placed cap (foldl place nd es).
Proof.
  revert nd. induction es as [|e es IH]; intros nd Hnd; simpl; [done|].
  apply IH, push_back_placed; [done|].
  apply (Z.mod_pos_bound (hasher e.1) cap cap_pos).
Qed.
End redistribute.

Lemma placed_replicate cap n : placed cap (replicate n ([] : bucket)).
Proof. by intros i l e [-> _]%lookup_replicate ?%elem_of_nil. Qed.

Lemma concat_replicate_nil n : concat (replicate n ([] : bucket)) = [].
Proof. induction n; simpl; auto. Qed.

Lemma Rehash_capacity m :
  0 ≤ capacity_ m → 4 * capacity_ m < size_t_mod →
  capacity_ (Rehash m) = 4 * capacity_ m.
Proof.
  intros. simpl. unfold wrap. rewrite Z.shiftl_mul_pow2 by lia.
  rewrite Z.mod_small; lia.
Qed.

Lemma Rehash_data_length m :
  0 ≤ capacity_ m → 4 * capacity_ m < size_t_mod →
  Z.of_nat (length (data_ (Rehash m))) = 4 * capacity_ m.
Proof.
  intros H0 H4. rewrite <- (Rehash_capacity m H0 H4). simpl.
  rewrite foldl_chains, redistribute_length, length_replicate.
  apply Z2Nat.id. unfold wrap, size_t_mod. apply Z.mod_pos_bound. lia.
Qed.

Lemma Rehash_entries m :
  0 < capacity_ m → 4 * capacity_ m < size_t_mod →
  entries (Rehash m) ≡ₚ entries m.
Proof.
  intros H0 H4. pose proof (Rehash_capacity m ltac:(lia) H4) as Hc.
  unfold entries. simpl in *. rewrite foldl_chains.
  rewrite redistribute_entries.
  - by rewrite concat_replicate_nil, app_nil_r.
  - lia.
  - rewrite length_replicate. lia.
Qed.

Lemma Rehash_wf m : wf m → 4 * capacity_ m < size_t_mod → wf (Rehash m).
Proof.
  intros Hm H4. pose proof (wf_capacity_pos m Hm) as H0.
  pose proof (Rehash_capacity m ltac:(lia) H4) as Hc.
  pose proof (Rehash_entries m H0 H4) as He.
  split.
  - destruct (wf_growth m Hm) as [g Hg]. exists (S g).
    rewrite Hc, Hg, Nat2Z.inj_succ, Z.pow_succ_r by lia. lia.
  - rewrite Hc. apply Rehash_data_length; lia.
  - simpl in *. rewrite foldl_chains.
    apply redistribute_placed; [lia|apply placed_replicate].
  - rewrite He. apply (wf_unique m Hm).
  - rewrite He. apply (wf_size m Hm).
  - apply (wf_size_t m Hm).
Qed.

Lemma grow_if_loaded_eq m :
  grow_if_loaded m =
  if load_exceeded (capacity_ m) (size_ m) then Rehash m else m.
Proof. unfold grow_if_loaded. by destruct (load_exceeded _ _). Qed.

Lemma grow_wf m : wf m → no_overflow m → wf (grow_if_loaded m).
Proof.
  intros Hm [H4 _]. rewrite grow_if_loaded_eq.
  destruct (load_exceeded _ _); [by apply Rehash_wf|done].
Qed.

Lemma grow_entries m :
  wf m → no_overflow m → entries (grow_if_loaded m) ≡ₚ entries m.
Proof.
  intros Hm [H4 _]. rewrite grow_if_loaded_eq.
  destruct (load_exceeded _ _); [|done].
  apply Rehash_entries; [by apply wf_capacity_pos|done].
Qed.

Lemma grow_size m : size_ (grow_if_loaded m) = size_ m.
Proof. rewrite grow_if_loaded_eq. by destruct (load_exceeded _ _). Qed.

Lemma grow_Find m k :
  wf m → no_overflow m → Find k (grow_if_loaded m) = Find k m.
Proof.
  intros Hm Ho. apply Find_Permutation;
    [by apply grow_wf|done|by apply grow_entries].
Qed.

(** ** The mutating members on well-formed states *)

Lemma new_map_wf : wf (new_map : Map).
Proof.
  split; unfold entries, new_map; cbn [data_ size_ capacity_].
  - by exists 0%nat.
  - by rewrite length_replicate.
  - apply placed_replicate.
  - rewrite concat_replicate_nil. constructor.
  - by rewrite concat_replicate_nil.
  - done.
Qed.

Lemma entries_new_map : entries (new_map : Map) = [].
Proof. apply concat_replicate_nil. Qed.

Lemma Clear_wf m : wf (Clear m).
Proof. apply new_map_wf. Qed.

Lemma Insert_present m k v :
  wf m → no_overflow m → contains m k →
  Insert k v m = (false, grow_if_loaded m).
Proof.
  intros Hm Ho Hk. pose proof (grow_wf m Hm Ho) as Hg.
  rewrite <- (contains_Permutation _ _ k (grow_entries m Hm Ho)) in Hk.
  apply list_elem_of_fmap in Hk as ([k' v'] & -> & He). simpl.
  unfold Insert.
  by destruct (FindInList_member _ k' v' Hg He) as [it ->].
Qed.

Lemma Insert_fresh m k v :
  wf m → no_overflow m → ¬ contains m k →
  let m' := (Insert k v m).2 in
  (Insert k v m).1 = true ∧ wf m' ∧ entries m' ≡ₚ (k, v) :: entries m ∧
  capacity_ m' = capacity_ (grow_if_loaded m) ∧ size_ m' = size_ m + 1.
Proof.
  intros Hm Ho Hk. pose proof (grow_wf m Hm Ho) as Hg.
  pose proof (grow_entries m Hm Ho) as Hge.
  rewrite <- (contains_Permutation _ _ k Hge) in Hk.
  pose proof (bucket_index (grow_if_loaded m) k Hg) as Hid.
  pose proof (wf_length _ Hg) as Hlen.
  unfold Insert. rewrite (FindInList_absent _ k Hg Hk). simpl.
  assert (Hsz : wrap (size_ (grow_if_loaded m) + 1) = size_ m + 1).
  { rewrite grow_size. unfold wrap. apply Z.mod_small.
    pose proof (wf_size m Hm). destruct Ho. lia. }
  assert (Hp : entries {| data_ := push_back (hasher k mod capacity_ (grow_if_loaded m))
                                     (k, v) (data_ (grow_if_loaded m));
                          size_ := wrap (size_ (grow_if_loaded m) + 1);
                          capacity_ := capacity_ (grow_if_loaded m) |}
               ≡ₚ (k, v) :: entries (grow_if_loaded m)).
  { unfold entries. simpl. apply push_back_entries. lia. }
  split_and!; [done| |by rewrite Hp, Hge|done|done].
  split; simpl.
  - apply (wf_growth _ Hg).
  - by rewrite push_back_length.
  - apply (push_back_placed _ (k, v)); [apply (wf_placed _ Hg)|simpl; lia].
  - rewrite Hp. csimpl. apply NoDup_cons. split; [done|apply (wf_unique _ Hg)].
  - rewrite Hp, Hsz. simpl. rewrite Hge. pose proof (wf_size m Hm). lia.
  - rewrite Hsz. destruct Ho. lia.
Qed.

Lemma Insert_wf m k v : wf m → no_overflow m → wf (Insert k v m).2.
Proof.
  intros Hm Ho. destruct (decide (contains m k)) as [Hk|Hk].
  - rewrite Insert_present by done. by apply grow_wf.
  - by apply Insert_fresh.
Qed.

Lemma Erase_absent m k : wf m → ¬ contains m k → Erase k m = (false, m).
Proof. intros Hm Hk. unfold Erase. by rewrite FindInList_absent. Qed.

(** What [Erase] does to the chain of the erased key and to the others. *)
Lemma Erase_present m k v :
  wf m → (k, v) ∈ entries m →
  let id := hasher k mod capacity_ m in
  let m' := (Erase k m).2 in
  (Erase k m).1 = true ∧
  capacity_ m' = capacity_ m ∧ size_ m' = size_ m - 1 ∧
  (∃ l1 l2, chain m id = l1 ++ (k, v) :: l2 ∧ (k ∉ l1.*1) ∧
            chain m' id = l1 ++ l2) ∧
  (∀ id', 0 ≤ id' → id' ≠ id → chain m' id' = chain m id') ∧
  ((k, v) :: entries m') ≡ₚ entries m.
Proof.
  intros Hm He. cbv zeta. set (id := hasher k mod capacity_ m).
  pose proof (bucket_index m k Hm) as Hid. fold id in Hid.
  pose proof (chain_lookup m id Hm Hid) as Hch.
  destruct (FindInList_member m k v Hm He) as [it Hit]. fold id in Hit.
  unfold Erase. fold id. rewrite Hit. cbn [fst snd size_ capacity_ data_].
  pose proof Hit as (Hl & _ & Hfirst)%list_find_Some.
  assert (Hperm : ((k, v) :: concat (alter (delete it) (Z.to_nat id) (data_ m)))
                  ≡ₚ concat (data_ m)).
  { by apply concat_alter_delete with (b := chain m id). }
  split_and!; [done|done| | | |done].
  - unfold wrap. apply Z.mod_small.
    pose proof (wf_size m Hm) as Hs. pose proof (wf_size_t m Hm).
    unfold entries in Hs. rewrite <- Hperm in Hs. simpl in Hs. lia.
  - exists (take it (chain m id)), (drop (S it) (chain m id)). split_and!.
    + symmetry. by apply take_drop_middle.
    + intros ([k' v'] & -> & (j & Hj & Hlt)%elem_of_take)%list_elem_of_fmap.
      by apply (Hfirst j (k', v')).
    + unfold chain at 1. simpl. rewrite list_lookup_alter_eq, Hch. simpl.
      apply delete_take_drop.
  - intros id' Hge Hne. unfold chain. simpl.
    rewrite list_lookup_alter_ne; [done|]. intros Heq. apply Hne.
    apply Z2Nat.inj in Heq; lia.
Qed.

Lemma Erase_wf m k : wf m → wf (Erase k m).2.
Proof.
  intros Hm. destruct (decide (contains m k)) as [Hk|Hk];
    [|by rewrite Erase_absent].
  apply list_elem_of_fmap in Hk as ([k' v] & -> & He). simpl.
  destruct (Erase_present m k' v Hm He) as (_ & Hc & Hs & _ & _ & Hp).
  pose proof (wf_unique m Hm) as Hu. pose proof (wf_size m Hm) as Hsz.
  rewrite <- Hp in Hu, Hsz. csimpl in *. apply NoDup_cons in Hu as [_ Hu].
  split; try done.
  - rewrite Hc. apply (wf_growth m Hm).
  - rewrite Hc, <- (wf_length m Hm). unfold Erase.
    destruct (FindInList m _ k') as [[it e]|]; simpl; [|done].
    by rewrite length_alter.
  - rewrite Hc. unfold Erase.
    destruct (FindInList m _ k') as [[it e]|] eqn:Hf; simpl;
      [|apply (wf_placed m Hm)].
    intros i l e' Hi He'. rewrite list_lookup_alter in Hi.
    case_decide as Hdec; [|by eapply (wf_placed m Hm)].
    destruct (data_ m !! _) as [l0|] eqn:E; simplify_eq/=.
    apply (wf_placed m Hm _ l0 e' E).
    apply FindInList_found in Hf as (Hl & _).
    unfold chain in Hl. rewrite E in Hl. simpl in Hl.
    rewrite (delete_Permutation l0 it e Hl). apply elem_of_cons. by right.
  - lia.
  - pose proof (wf_size_t m Hm). lia.
Qed.

Lemma exec_wf c m : wf m → no_overflow m → wf (exec c m).2.
Proof.
  intros Hm Ho. destruct c; simpl; auto using Insert_wf, Erase_wf, Clear_wf.
  by destruct (At key m).
Qed.

Lemma run_wf cs m : wf m → in_range cs m → wf (run cs m).
Proof.
  revert m. induction cs as [|c cs IH]; intros m Hm Hr; simpl; [done|].
  destruct Hr as [Ho Hr]. by apply IH, Hr; apply exec_wf.
Qed.

(** ** Runs of calls *)

Lemma run_app cs1 cs2 m : run (cs1 ++ cs2) m = run cs2 (run cs1 m).
Proof. revert m. induction cs1 as [|c cs1 IH]; intros m; simpl; auto. Qed.

Lemma Insert_size m k v :
  wf m → no_overflow m →
  size_ (Insert k v m).2 = size_ m + (if (Insert k v m).1 then 1 else 0).
Proof.
  intros Hm Ho. destruct (decide (contains m k)) as [Hk|Hk].
  - rewrite Insert_present by done. simpl. rewrite grow_size. lia.
  - by destruct (Insert_fresh m k v Hm Ho Hk) as (-> & _ & _ & _ & ->).
Qed.

Lemma Erase_size m k :
  wf m → size_ (Erase k m).2 = size_ m - (if (Erase k m).1 then 1 else 0).
Proof.
  intros Hm. destruct (decide (contains m k)) as [Hk|Hk].
  - apply list_elem_of_fmap in Hk as ([k' v] & -> & Hk). simpl.
    by destruct (Erase_present m k' v Hm Hk) as (-> & _ & -> & _).
  - rewrite Erase_absent by done. simpl. lia.
Qed.

Lemma Erase_capacity m key : capacity_ (Erase key m).2 = capacity_ m.
Proof. unfold Erase. by destruct (FindInList m _ key) as [[it e]|]. Qed.

Lemma Erase_data_length m key :
  length (data_ (Erase key m).2) = length (data_ m).
Proof.
  unfold Erase. destruct (FindInList m _ key) as [[it e]|]; simpl; [|done].
  apply length_alter.
Qed.

Lemma Insert_capacity m key value :
  capacity_ (Insert key value m).2 = capacity_ (grow_if_loaded m).
Proof. unfold Insert. by destruct (FindInList _ _ key). Qed.

Lemma Insert_data_length m key value :
  length (data_ (Insert key value m).2) = length (data_ (grow_if_loaded m)).
Proof.
  unfold Insert. destruct (FindInList _ _ key); simpl; [done|].
  apply push_back_length.
Qed.

(** ** States within the call bound *)

Lemma within_no_overflow n m : within n m → n < max_calls → no_overflow m.
Proof.
  intros (Hm & Hs & Hc) Hn.
  unfold no_overflow, size_t_mod, max_calls, kMutexesCount in *. lia.
Qed.

Lemma new_map_within : within 0 (new_map : Map).
Proof. split_and!; [apply new_map_wf|done|done]. Qed.

Lemma grow_capacity_bound n m :
  within n m → n < max_calls →
  capacity_ (grow_if_loaded m) ≤ Z.max kMutexesCount (32 * (n + 1)).
Proof.
  intros Hw Hn. pose proof (within_no_overflow n m Hw Hn) as [H4 Hs1].
  destruct Hw as (Hm & Hs & Hc). pose proof (wf_capacity_pos m Hm) as Hpos.
  pose proof (wf_size m Hm) as Hsz. unfold size_t_mod in *.
  rewrite grow_if_loaded_eq. destruct (load_exceeded _ _) eqn:El; [|lia].
  rewrite Rehash_capacity by (unfold size_t_mod; lia).
  apply load_exceeded_bound in El; lia.
Qed.

Lemma exec_within c n m :
  within n m → n < max_calls → within (n + 1) (exec c m).2.
Proof.
  intros Hw Hn. pose proof (within_no_overflow n m Hw Hn) as Ho.
  pose proof (grow_capacity_bound n m Hw Hn) as Hg.
  destruct Hw as (Hm & Hs & Hc). pose proof (wf_size m Hm) as Hsz.
  split; [by apply exec_wf|].
  destruct c; simpl.
  - rewrite Insert_size, Insert_capacity by done.
    split; [destruct (Insert key value m).1; lia|done].
  - rewrite Erase_size, Erase_capacity by done.
    split; [destruct (Erase key m).1; lia|lia].
  - lia.
  - lia.
  - destruct (At key m); simpl; lia.
  - lia.
Qed.

(** Fewer than [max_calls] calls never meet an overflow. *)
Lemma run_in_range cs n m :
  within n m → n + Z.of_nat (length cs) ≤ max_calls →
  within (n + Z.of_nat (length cs)) (run cs m) ∧ in_range cs m.
Proof.
  revert n m. induction cs as [|c cs IH]; intros n m Hw Hn.
  { simpl. by rewrite Z.add_0_r. }
  rewrite length_cons, Nat2Z.inj_succ in Hn |- *.
  destruct (IH (n + 1) (exec c m).2) as [Hw' Hr];
    [apply exec_within; [done|lia]|lia|].
  replace (n + Z.succ (Z.of_nat (length cs)))
    with (n + 1 + Z.of_nat (length cs)) by lia.
  split; [done|]. split; [|done].
  apply (within_no_overflow n); [done|lia].
Qed.

Lemma reachable_in_within n m : reachable_in n m → n ≤ max_calls → within n m.
Proof.
  intros (cs & <- & ->) Hn.
  by apply (run_in_range cs 0 new_map new_map_within).
Qed.

Lemma reachable_wf m : reachable m → wf m.
Proof.
  intros (n & Hn & Hr). by apply (reachable_in_within n m Hr ltac:(lia)).
Qed.

Lemma reachable_no_overflow m : reachable m → no_overflow m.
Proof.
  intros (n & Hn & Hr). apply (within_no_overflow n); [|done].
  apply reachable_in_within; [done|lia].
Qed.

Lemma Insert_entries_incl m k v e :
  wf m → no_overflow m → e ∈ entries m → e ∈ entries (Insert k v m).2.
Proof.
  intros Hm Ho He. destruct (decide (contains m k)) as [Hk|Hk].
  - rewrite Insert_present by done. simpl. by rewrite grow_entries.
  - destruct (Insert_fresh m k v Hm Ho Hk) as (_ & _ & -> & _).
    apply elem_of_cons. by right.
Qed.

Lemma Erase_entries_other m k e :
  wf m → e.1 ≠ k → e ∈ entries m → e ∈ entries (Erase k m).2.
Proof.
  intros Hm Hne He. destruct (decide (contains m k)) as [Hk|Hk];
    [|by rewrite Erase_absent].
  apply list_elem_of_fmap in Hk as ([k' v] & -> & Hk). simpl in *.
  destruct (Erase_present m k' v Hm Hk) as (_ & _ & _ & _ & _ & Hp).
  rewrite <- Hp in He. apply elem_of_cons in He as [->|He]; done.
Qed.

Lemma exec_keeps c m k v :
  wf m → no_overflow m → keeps k c →
  (k, v) ∈ entries m → (k, v) ∈ entries (exec c m).2.
Proof.
  intros Hm Ho Hc He. destruct c; simpl in *; try done.
  - by apply Insert_entries_incl.
  - by apply Erase_entries_other.
  - by destruct (At key m).
Qed.

Lemma run_keeps cs m k v :
  wf m → in_range cs m → Forall (keeps k) cs →
  (k, v) ∈ entries m → (k, v) ∈ entries (run cs m).
Proof.
  revert m. induction cs as [|c cs IH]; intros m Hm Hr Hcs He; simpl; [done|].
  destruct Hr as [Ho Hr]. apply Forall_cons in Hcs as [Hc Hcs].
  apply IH; [by apply exec_wf|done..|by apply exec_keeps].
Qed.

(** C1: a successful [Insert key value] makes [Find key] return
    [(true, value)], at once and after any further calls that neither erase
    [key] nor clear the map; while [key] is stored, another [Insert] of it
    returns [false] and [Find key] still returns the stored value.  The
    state is any state of a map [n] calls after its construction, the calls
    counted up to [max_calls]. *)
Theorem C1_insert_find_no_overwrite n m key value :
  reachable_in n m → n < max_calls →
  let m1 := (Insert key value m).2 in
  ((Insert key value m).1 = true →
     Find key m1 = (true, value) ∧
     ∀ cs, n + 1 + Z.of_nat (length cs) ≤ max_calls → Forall (keeps key) cs →
           Find key (run cs m1) = (true, value)) ∧
  (∀ v w, Find key m = (true, v) →
          (Insert key w m).1 = false ∧ Find key (Insert key w m).2 = (true, v)).
Proof.
  intros Hr Hn. cbv zeta.
  pose proof (reachable_in_within n m Hr ltac:(lia)) as Hw.
  pose proof (within_no_overflow n m Hw Hn) as Ho.
  pose proof (exec_within (CallInsert key value) n m Hw Hn) as Hw1.
  destruct Hw as (Hm & _). split.
  - intros Hins. destruct (decide (contains m key)) as [Hk|Hk].
    { by rewrite Insert_present in Hins. }
    destruct (Insert_fresh m key value Hm Ho Hk) as (_ & Hwf & Hp & _).
    assert (He : (key, value) ∈ entries (Insert key value m).2).
    { rewrite Hp. apply elem_of_cons. by left. }
    split; [by apply Find_member|].
    intros cs Hlen Hcs.
    destruct (run_in_range cs (n + 1) _ Hw1 Hlen) as [_ Hrange].
    apply Find_member; [by apply run_wf|]. by apply run_keeps.
  - intros v w Hf. pose proof (Find_true m key v Hf) as He.
    assert (Hk : contains m key).
    { apply list_elem_of_fmap. by exists (key, v). }
    rewrite Insert_present by done. simpl. split; [done|].
    by rewrite grow_Find.
Qed.

(** C2: in every reachable state the capacity is [kMutexesCount] times a
    power of four, hence a multiple of [kMutexesCount], and the stripe
    chosen from the hash is the stripe of the bucket chosen from the hash;
    the capacity starts at [kMutexesCount], [Rehash] multiplies it by four,
    [Insert] leaves it or multiplies it by four, [Clear] resets it.
    Reachable: the state of a map fewer than [max_calls] calls after its
    construction. *)
Theorem C2_capacity_multiple_of_stripes m :
  reachable m →
  (∃ g : nat, capacity_ m = kMutexesCount * 4 ^ Z.of_nat g) ∧
  (kMutexesCount | capacity_ m) ∧
  Z.of_nat (length (data_ m)) = capacity_ m ∧
  (∀ h, (h mod capacity_ m) mod kMutexesCount = h mod kMutexesCount) ∧
  capacity_ (new_map : Map) = kMutexesCount ∧
  capacity_ (Rehash m) = capacity_ m * 4 ∧
  (∀ key value,
     capacity_ (Insert key value m).2 = capacity_ m ∨
     capacity_ (Insert key value m).2 = capacity_ m * 4) ∧
  capacity_ (Clear m) = kMutexesCount.
Proof.
  intros Hr. pose proof (reachable_no_overflow m Hr) as [H4 _].
  apply reachable_wf in Hr as Hm. pose proof (wf_capacity_pos m Hm) as Hpos.
  destruct (wf_growth m Hm) as [g Hg].
  assert (Hdiv : (kMutexesCount | capacity_ m)).
  { exists (4 ^ Z.of_nat g). lia. }
  assert (Hre : capacity_ (Rehash m) = capacity_ m * 4).
  { rewrite Rehash_capacity; lia. }
  split_and!; [by exists g|done|apply (wf_length m Hm)| |done|done| |done].
  - intros h. by apply Z.mod_mod_divide.
  - intros key value. rewrite Insert_capacity, grow_if_loaded_eq.
    destruct (load_exceeded _ _); auto.
Qed.

(** ** Filling a fresh map *)

Lemma filled_S kvs n e :
  kvs !! n = Some e → filled kvs (S n) = (Insert e.1 e.2 (filled kvs n)).2.
Proof.
  intros He. unfold filled, insert_calls.
  rewrite (take_S_r kvs n e He), fmap_app, run_app. done.
Qed.

Lemma NoDup_fst_take_fresh (kvs : list (K * V)) n e :
  NoDup kvs.*1 → kvs !! n = Some e → e.1 ∉ (take n kvs).*1.
Proof.
  intros Hnd He Hin. rewrite <- (take_drop_middle kvs n e He) in Hnd.
  rewrite fmap_app, fmap_cons in Hnd.
  apply NoDup_app in Hnd as (_ & Hnd & _). apply (Hnd _ Hin).
  apply elem_of_cons. by left.
Qed.

(** Below 57 entries a fresh map takes every new key without growing. *)
Lemma filled_small kvs n :
  NoDup kvs.*1 → (n ≤ 57)%nat → (n ≤ length kvs)%nat →
  wf (filled kvs n) ∧ capacity_ (filled kvs n) = 63 ∧
  entries (filled kvs n) ≡ₚ take n kvs.
Proof.
  intros Hnd. induction n as [|n IH]; intros H57 Hlen.
  { change (filled kvs 0) with (new_map : Map).
    split_and!; [apply new_map_wf|done|]. by rewrite entries_new_map. }
  destruct IH as (Hwf & Hcap & Hent); [lia..|].
  destruct (lookup_lt_is_Some_2 kvs n ltac:(lia)) as [e He].
  pose proof (wf_size _ Hwf) as Hsz. rewrite Hent, length_take in Hsz.
  assert (Ho : no_overflow (filled kvs n)).
  { unfold no_overflow, size_t_mod. rewrite Hcap, Hsz. lia. }
  assert (Hfresh : ¬ contains (filled kvs n) e.1).
  { unfold contains. rewrite Hent. by apply NoDup_fst_take_fresh. }
  assert (Hgrow : grow_if_loaded (filled kvs n) = filled kvs n).
  { rewrite grow_if_loaded_eq, Hcap, Hsz.
    rewrite load_exceeded_63_below; [done|lia]. }
  destruct (Insert_fresh _ e.1 e.2 Hwf Ho Hfresh) as (_ & Hwf' & Hp & Hc & _).
  rewrite (filled_S kvs n e He). split_and!; [done|by rewrite Hc, Hgrow|].
  rewrite Hp, Hent, (take_S_r kvs n e He). destruct e. simpl.
  by rewrite (comm (++)).
Qed.

(** C3: from a fresh map, 58 inserts of distinct keys all succeed; the
    capacity is 63 up to and including the state after the 57th, where the
    load test succeeds for the first time; the 58th insert leaves a map of
    capacity 252 with 252 buckets in which all 58 keys are found with the
    values they were inserted with, every entry in the bucket given by its
    hash modulo 252. *)
Theorem C3_growth_at_58th_insert (kvs : list (K * V)) :
  NoDup kvs.*1 → length kvs = 58%nat →
  (∀ n e, kvs !! n = Some e → (Insert e.1 e.2 (filled kvs n)).1 = true) ∧
  (∀ n, (n ≤ 57)%nat →
     capacity_ (filled kvs n) = 63 ∧ Size (filled kvs n) = Z.of_nat n ∧
     load_exceeded (capacity_ (filled kvs n)) (size_ (filled kvs n))
       = bool_decide (n = 57%nat)) ∧
  filled kvs 58 = run (insert_calls kvs) new_map ∧
  capacity_ (filled kvs 58) = 252 ∧
  length (data_ (filled kvs 58)) = 252%nat ∧
  Size (filled kvs 58) = 58 ∧
  (∀ key value, (key, value) ∈ kvs → Find key (filled kvs 58) = (true, value)) ∧
  placed 252 (data_ (filled kvs 58)).
Proof.
  intros Hnd Hlen.
  assert (Hsmall : ∀ n, (n ≤ 57)%nat →
     wf (filled kvs n) ∧ capacity_ (filled kvs n) = 63 ∧
     size_ (filled kvs n) = Z.of_nat n ∧ no_overflow (filled kvs n) ∧
     ∀ e, kvs !! n = Some e → ¬ contains (filled kvs n) e.1).
  { intros n Hn.
    destruct (filled_small kvs n Hnd Hn ltac:(lia)) as (Hwf & Hcap & Hent).
    pose proof (wf_size _ Hwf) as Hsz. rewrite Hent, length_take in Hsz.
    split_and!; [done|done|lia| |].
    - unfold no_overflow, size_t_mod. rewrite Hcap, Hsz. lia.
    - intros e He. unfold contains. rewrite Hent.
      by apply NoDup_fst_take_fresh. }
  destruct (Hsmall 57%nat ltac:(lia)) as (Hwf & Hcap & Hsz & Ho & Hfr).
  change (Z.of_nat 57) with 57 in Hsz.
  destruct (lookup_lt_is_Some_2 kvs 57 ltac:(lia)) as [e He].
  destruct (Insert_fresh _ e.1 e.2 Hwf Ho (Hfr e He))
    as (_ & Hwf' & Hp & Hc & Hs).
  rewrite <- (filled_S kvs 57 e He) in Hwf', Hp, Hc, Hs.
  assert (Hcap' : capacity_ (filled kvs 58) = 252).
  { rewrite Hc, grow_if_loaded_eq, Hcap, Hsz, load_exceeded_63_57.
    rewrite Rehash_capacity; rewrite Hcap; [done|lia|done]. }
  assert (Hent : entries (filled kvs 58) ≡ₚ kvs).
  { rewrite Hp. destruct e as [ke ve]. simpl.
    destruct (filled_small kvs 57 Hnd) as (_ & _ & ->); [lia..|].
    rewrite <- (take_ge kvs 58) at 2 by lia.
    rewrite (take_S_r kvs 57 _ He). apply Permutation_cons_append. }
  split_and!.
  - intros n e' He'. pose proof (lookup_lt_Some _ _ _ He') as Hlt.
    destruct (Hsmall n ltac:(lia)) as (Hwfn & _ & _ & Hon & Hfrn).
    by destruct (Insert_fresh _ e'.1 e'.2 Hwfn Hon (Hfrn e' He')) as (? & _).
  - intros n Hn. destruct (Hsmall n Hn) as (_ & Hcn & Hsn & _).
    split_and!; [done|done|]. rewrite Hcn, Hsn.
    case_bool_decide as Hd.
    + subst n. apply load_exceeded_63_57.
    + apply load_exceeded_63_below. lia.
  - unfold filled. by rewrite take_ge by lia.
  - done.
  - pose proof (wf_length _ Hwf'). lia.
  - unfold Size. rewrite Hs, Hsz. done.
  - intros key value Hin. apply Find_member; [done|]. by rewrite Hent.
  - rewrite <- Hcap'. apply (wf_placed _ Hwf').
Qed.

(** ** The size counter *)

Lemma run_size cs m :
  wf m → in_range cs m → CallClear ∉ cs →
  size_ (run cs m) = size_ m + successes is_insert cs m - successes is_erase cs m.
Proof.
  revert m. induction cs as [|c cs IH]; intros m Hm Hr Hcl; simpl; [lia|].
  destruct Hr as [Ho Hr]. apply not_elem_of_cons in Hcl as [Hc Hcl].
  rewrite IH by (try apply exec_wf; done).
  destruct c; simpl; try done; try lia.
  - rewrite Insert_size by done. destruct (Insert key value m).1; lia.
  - rewrite Erase_size by done. destruct (Erase key m).1; lia.
  - destruct (At key m); simpl; lia.
Qed.

(** C4: in every state of a map [n] calls after its construction, [n]
    below [max_calls], [Size] is the number of entries in the buckets;
    [Insert] adds one to it exactly when it returns [true], [Erase] takes
    one off exactly when it returns [true], [Rehash] keeps it and keeps the
    entries; over further calls without [Clear] it changes by the number
    of successful inserts minus the number of successful erases, so that
    from a fresh map it is that difference. *)
Theorem C4_size_counts_entries n m :
  reachable_in n m → n < max_calls →
  Size m = Z.of_nat (length (entries m)) ∧
  (∀ key value,
     Size (Insert key value m).2
     = Size m + (if (Insert key value m).1 then 1 else 0)) ∧
  (∀ key, Size (Erase key m).2 = Size m - (if (Erase key m).1 then 1 else 0)) ∧
  (Size (Rehash m) = Size m ∧ entries (Rehash m) ≡ₚ entries m) ∧
  (∀ cs, n + Z.of_nat (length cs) ≤ max_calls → CallClear ∉ cs →
     Size (run cs m)
     = Size m + successes is_insert cs m - successes is_erase cs m) ∧
  (∀ cs, Z.of_nat (length cs) ≤ max_calls → CallClear ∉ cs →
     Size (run cs (new_map : Map))
     = successes is_insert cs new_map - successes is_erase cs new_map).
Proof.
  intros Hr Hn. pose proof (reachable_in_within n m Hr ltac:(lia)) as Hw.
  pose proof (within_no_overflow n m Hw Hn) as Ho.
  pose proof Hw as (Hm & _). unfold Size. split_and!.
  - apply (wf_size m Hm).
  - intros key value. by apply Insert_size.
  - intros key. by apply Erase_size.
  - done.
  - destruct Ho as [H4 _].
    apply Rehash_entries; [by apply wf_capacity_pos|done].
  - intros cs Hlen Hcl. destruct (run_in_range cs n m Hw Hlen) as [_ Hrange].
    by apply run_size.
  - intros cs Hlen Hcl.
    destruct (run_in_range cs 0 new_map new_map_within Hlen) as [_ Hrange].
    rewrite run_size by (try apply new_map_wf; done). simpl. lia.
Qed.

(** ** Clear *)

Lemma Clear_no_overflow m : no_overflow (Clear m).
Proof. by split. Qed.

Lemma Clear_empty m key : ¬ contains (Clear m) key.
Proof.
  unfold contains. change (Clear m) with (new_map : Map).
  rewrite entries_new_map. by intros ?%elem_of_nil.
Qed.

(** C5: whatever the state, [Clear] leaves size 0, capacity
    [kMutexesCount] and that many empty buckets; no key is found, and an
    [Insert] of any key then succeeds and stores its value. *)
Theorem C5_clear_resets m :
  Size (Clear m) = 0 ∧
  capacity_ (Clear m) = kMutexesCount ∧
  data_ (Clear m) = replicate 63 [] ∧
  (∀ key, Find key (Clear m) = (false, V_default)) ∧
  (∀ key value,
     (Insert key value (Clear m)).1 = true ∧
     Find key (Insert key value (Clear m)).2 = (true, value)).
Proof.
  split_and!; [done..| |].
  - intros key. apply Find_absent; [apply Clear_wf|apply Clear_empty].
  - intros key value.
    destruct (Insert_fresh (Clear m) key value (Clear_wf m)
                (Clear_no_overflow m) (Clear_empty m key))
      as (Hb & Hwf & Hp & _).
    split; [done|]. apply Find_member; [done|]. rewrite Hp.
    apply elem_of_cons. by left.
Qed.

(** ** At *)

Lemma At_Find m key value :
  At key m = Returns value ↔ Find key m = (true, value).
Proof.
  unfold At, Find. destruct (FindInList m _ key) as [[it e]|]; [|done].
  split; by intros [= ->].
Qed.

Lemma At_throws m key : At key m = Throws out_of_range ↔ (Find key m).1 = false.
Proof. unfold At, Find. by destruct (FindInList m _ key) as [[it e]|]. Qed.

(** C6: in every reachable state [At key] throws [out_of_range] exactly
    when [key] is not stored, and otherwise returns the stored value, the
    one [Find key] returns; no other call throws, and [At] leaves the state
    as it is. *)
Theorem C6_at_throws_iff_absent m key :
  reachable m →
  (At key m = Throws out_of_range ↔ ¬ contains m key) ∧
  (∀ value, (key, value) ∈ entries m →
     At key m = Returns value ∧ Find key m = (true, value)) ∧
  (∀ value, At key m = Returns value ↔ Find key m = (true, value)) ∧
  (∀ c (ex : exception), (exec c m).1 = Throws ex →
     ∃ key', c = CallAt key' ∧ ex = out_of_range ∧ ¬ contains m key') ∧
  (exec (CallAt key) m).2 = m.
Proof.
  intros Hm%reachable_wf.
  assert (Hthrow : ∀ k, At k m = Throws out_of_range ↔ ¬ contains m k).
  { intros k. rewrite At_throws. split; [by apply Find_false|].
    intros Hk. by rewrite Find_absent. }
  split_and!; [done| |apply At_Find| |].
  - intros value He. pose proof (Find_member m key value Hm He) as Hf.
    split; [by apply At_Find|done].
  - intros c e Hc. destruct c; simpl in Hc; try done.
    destruct (At key0 m) as [v|[]] eqn:Hat; [done|].
    exists key0. destruct e. split_and!; [done..|by apply Hthrow].
  - simpl. by destruct (At key m).
Qed.

(** ** Erase *)

Lemma Erase_removes m key : wf m → ¬ contains (Erase key m).2 key.
Proof.
  intros Hm. destruct (decide (contains m key)) as [Hk|Hk];
    [|by rewrite Erase_absent].
  apply list_elem_of_fmap in Hk as ([k v] & -> & Hk). simpl in *.
  destruct (Erase_present m k v Hm Hk) as (_ & _ & _ & _ & _ & Hp).
  pose proof (wf_unique m Hm) as Hu. rewrite <- Hp in Hu. csimpl in Hu.
  by apply NoDup_cons in Hu as [Hu _].
Qed.

(** C7: in every reachable state [Erase key] returns [true] exactly when
    [key] is stored; it then takes the entry of [key] out of its chain and
    leaves the entries before and after it in their order, the other chains
    and the capacity as they were; on a key that is not stored it returns
    [false] and changes nothing; after it [key] is not stored. *)
Theorem C7_erase_removes_matching_entry m key :
  reachable m →
  ((Erase key m).1 = true ↔ contains m key) ∧
  (∀ value, (key, value) ∈ entries m →
     let id := hasher key mod capacity_ m in
     let m' := (Erase key m).2 in
     (Erase key m).1 = true ∧
     (∃ l1 l2, chain m id = l1 ++ (key, value) :: l2 ∧ (key ∉ l1.*1) ∧
               chain m' id = l1 ++ l2) ∧
     (∀ id', 0 ≤ id' → id' ≠ id → chain m' id' = chain m id') ∧
     ((key, value) :: entries m') ≡ₚ entries m ∧
     capacity_ m' = capacity_ m ∧ Size m' = Size m - 1) ∧
  (¬ contains m key → Erase key m = (false, m)) ∧
  ¬ contains (Erase key m).2 key.
Proof.
  intros Hm%reachable_wf. split_and!.
  - split.
    + intros Hb. destruct (decide (contains m key)) as [|Hn]; [done|].
      by rewrite Erase_absent in Hb.
    + intros ([k v] & -> & Hk)%list_elem_of_fmap.
      by destruct (Erase_present m k v Hm Hk) as (? & _).
  - intros value He. cbv zeta.
    destruct (Erase_present m key value Hm He) as (? & ? & ? & ? & ? & ?).
    done.
  - intros Hk. by apply Erase_absent.
  - by apply Erase_removes.
Qed.

(** ** Insert of a stored key *)

(** C8 (as the code has it): in every reachable state in which [key] is
    stored, [Insert key value] returns [false] and keeps the contents: the
    same entries, the same answer of [Find] for every key and the same
    size.  The state itself is the same when the load test at the head of
    [Insert] fails; when it succeeds, [Insert] leaves the state [Rehash]
    produces, with four times the capacity. *)
Theorem C8_insert_present_keeps_contents m key value :
  reachable m → contains m key →
  (Insert key value m).1 = false ∧
  Size (Insert key value m).2 = Size m ∧
  entries (Insert key value m).2 ≡ₚ entries m ∧
  (∀ key', Find key' (Insert key value m).2 = Find key' m) ∧
  (load_exceeded (capacity_ m) (size_ m) = false →
     (Insert key value m).2 = m) ∧
  (load_exceeded (capacity_ m) (size_ m) = true →
     (Insert key value m).2 = Rehash m ∧
     capacity_ (Insert key value m).2 = capacity_ m * 4).
Proof.
  intros Hr Hk. pose proof (reachable_no_overflow m Hr) as Ho.
  apply reachable_wf in Hr as Hm. rewrite Insert_present by done. simpl.
  split_and!; [done|apply grow_size|by apply grow_entries| | |].
  - intros key'. by apply grow_Find.
  - intros Hl. by rewrite grow_if_loaded_eq, Hl.
  - intros Hl. rewrite grow_if_loaded_eq, Hl. split; [done|].
    pose proof (wf_capacity_pos m Hm). destruct Ho.
    rewrite Rehash_capacity; lia.
Qed.

(** ** Who changes the capacity *)

(** C10: [Erase], [Find], [At] and [Size] leave the capacity and the
    number of buckets as they are in every state, whatever the load;
    [Insert] is the one that tests the load, and it quadruples the capacity
    and allocates that many buckets exactly when the test succeeds. *)
Theorem C10_only_insert_grows m key :
  (capacity_ (Erase key m).2 = capacity_ m ∧
   length (data_ (Erase key m).2) = length (data_ m)) ∧
  (exec (CallErase key) m).2 = (Erase key m).2 ∧
  (exec (CallFind key) m).2 = m ∧
  (exec (CallAt key) m).2 = m ∧
  (exec CallSize m).2 = m ∧
  (∀ value,
     capacity_ (Insert key value m).2
     = (if load_exceeded (capacity_ m) (size_ m)
        then wrap (Z.shiftl (capacity_ m) 2) else capacity_ m) ∧
     length (data_ (Insert key value m).2)
     = (if load_exceeded (capacity_ m) (size_ m)
        then Z.to_nat (wrap (Z.shiftl (capacity_ m) 2))
        else length (data_ m))).
Proof.
  split_and!; [apply Erase_capacity|apply Erase_data_length|done|done| |done|].
  - simpl. by destruct (At key m).
  - intros value. rewrite Insert_capacity, Insert_data_length.
    rewrite grow_if_loaded_eq. destruct (load_exceeded _ _); [|done].
    split; [done|]. simpl.
    by rewrite foldl_chains, redistribute_length, length_replicate.
Qed.

(** * Further properties of the member functions *)

(** ** Contents as seen through [Find] *)

Lemma Find_entries_eq m m' key :
  wf m → wf m' →
  (∀ v, (key, v) ∈ entries m ↔ (key, v) ∈ entries m') →
  Find key m = Find key m'.
Proof.
  intros Hm Hm' Heq. destruct (decide (contains m key)) as [Hk|Hk].
  - apply list_elem_of_fmap in Hk as ([k v] & -> & He). simpl in *.
    rewrite (Find_member m k v Hm He). symmetry.
    apply Find_member; [done|]. by apply Heq.
  - rewrite (Find_absent m key Hm Hk). symmetry. apply Find_absent; [done|].
    intros ([k v] & -> & He)%list_elem_of_fmap. simpl in *. apply Hk.
    apply list_elem_of_fmap. exists (k, v). split; [done|]. by apply Heq.
Qed.

Lemma contains_entries m key : contains m key ↔ ∃ v, (key, v) ∈ entries m.
Proof.
  unfold contains. rewrite list_elem_of_fmap. split.
  - intros ([k v] & -> & He). by exists v.
  - intros (v & He). by exists (key, v).
Qed.

Lemma Erase_no_overflow m key : wf m → no_overflow m → no_overflow (Erase key m).2.
Proof.
  intros Hm [H4 Hs]. split.
  - by rewrite Erase_capacity.
  - rewrite Erase_size by done. destruct (Erase key m).1; lia.
Qed.

(** X2: in every reachable state no key occurs in two entries, every
    entry is in the bucket whose index is the hash of its key modulo the
    capacity, and [Find key] returns [(true, v)] exactly when [(key, v)] is
    an entry. *)
Theorem X2_unique_keys_placed_entries m :
  reachable m →
  NoDup (entries m).*1 ∧
  (∀ (i : nat) l e,
     data_ m !! i = Some l → e ∈ l → hasher e.1 mod capacity_ m = Z.of_nat i) ∧
  (∀ key v, Find key m = (true, v) ↔ (key, v) ∈ entries m) ∧
  (∀ key, Find key m = (false, V_default) ∨ ∃ v, Find key m = (true, v)).
Proof.
  intros Hm%reachable_wf. split_and!.
  - apply (wf_unique m Hm).
  - apply (wf_placed m Hm).
  - intros key v. split; [apply Find_true|by apply Find_member].
  - intros key. destruct (decide (contains m key)) as [Hk|Hk].
    + apply contains_entries in Hk as [v He]. right. exists v.
      by apply Find_member.
    + left. by apply Find_absent.
Qed.

(** X3: in every reachable state [Insert key value] changes nothing for
    the other keys: [Find key'] returns what it returned before, also when
    the call grows the table. *)
Theorem X3_insert_keeps_other_keys m key value key' :
  reachable m → key' ≠ key →
  Find key' (Insert key value m).2 = Find key' m ∧
  (contains (Insert key value m).2 key' ↔ contains m key').
Proof.
  intros Hr Hne. pose proof (reachable_no_overflow m Hr) as Ho.
  apply reachable_wf in Hr as Hm.
  assert (Hent : ∀ v, (key', v) ∈ entries (Insert key value m).2
                      ↔ (key', v) ∈ entries m).
  { intros v. destruct (decide (contains m key)) as [Hk|Hk].
    - rewrite Insert_present by done. simpl. by rewrite grow_entries.
    - destruct (Insert_fresh m key value Hm Ho Hk) as (_ & _ & -> & _).
      rewrite elem_of_cons. split; [|by right].
      intros [[= ? _]|?]; [congruence|done]. }
  split.
  - symmetry. apply Find_entries_eq; [done|by apply Insert_wf|].
    intros v. symmetry. apply Hent.
  - rewrite !contains_entries. by setoid_rewrite Hent.
Qed.

(** X4: in every reachable state [Erase key] changes nothing for the
    other keys. *)
Theorem X4_erase_keeps_other_keys m key key' :
  reachable m → key' ≠ key →
  Find key' (Erase key m).2 = Find key' m ∧
  (contains (Erase key m).2 key' ↔ contains m key').
Proof.
  intros Hm%reachable_wf Hne.
  assert (Hent : ∀ v, (key', v) ∈ entries (Erase key m).2
                      ↔ (key', v) ∈ entries m).
  { intros v. destruct (decide (contains m key)) as [Hk|Hk];
      [|by rewrite Erase_absent].
    apply contains_entries in Hk as [v0 Hk].
    destruct (Erase_present m key v0 Hm Hk) as (_ & _ & _ & _ & _ & Hp).
    rewrite <- Hp, elem_of_cons. split; [by right|].
    intros [[= ? _]|?]; [congruence|done]. }
  split.
  - symmetry. apply Find_entries_eq; [done|by apply Erase_wf|].
    intros v. symmetry. apply Hent.
  - rewrite !contains_entries. by setoid_rewrite Hent.
Qed.

(** X5: after [Erase key] on a reachable state, [Find key] returns
    [(false, V{})], [At key] throws, a second [Erase key] returns [false]
    and leaves the state as it is, and [Insert key value] returns [true]
    and stores [value]. *)
Theorem X5_erase_then_lookup m key :
  reachable m →
  let m' := (Erase key m).2 in
  Find key m' = (false, V_default) ∧
  At key m' = Throws out_of_range ∧
  Erase key m' = (false, m') ∧
  (∀ value, (Insert key value m').1 = true ∧
            Find key (Insert key value m').2 = (true, value)).
Proof.
  intros Hr. cbv zeta. pose proof (reachable_no_overflow m Hr) as Ho.
  apply reachable_wf in Hr as Hm.
  pose proof (Erase_wf m key Hm) as Hm'.
  pose proof (Erase_removes m key Hm) as Hgone.
  pose proof (Erase_no_overflow m key Hm Ho) as Ho'.
  split_and!.
  - by apply Find_absent.
  - apply At_throws. by rewrite Find_absent.
  - by apply Erase_absent.
  - intros value.
    destruct (Insert_fresh _ key value Hm' Ho' Hgone) as (Hb & Hwf & Hp & _).
    split; [done|]. apply Find_member; [done|]. rewrite Hp.
    apply elem_of_cons. by left.
Qed.

(** X6: on a reachable state that does not store [key], [Insert key value]
    followed by [Erase key] gives back the contents: [Erase] returns
    [true], and the entries, the size and the answer of [Find] for every
    key are those of the state before the [Insert]. *)
Theorem X6_insert_then_erase m key value :
  reachable m → ¬ contains m key →
  let m1 := (Insert key value m).2 in
  (Insert key value m).1 = true ∧
  (Erase key m1).1 = true ∧
  entries (Erase key m1).2 ≡ₚ entries m ∧
  Size (Erase key m1).2 = Size m ∧
  (∀ key', Find key' (Erase key m1).2 = Find key' m).
Proof.
  intros Hr Hk. cbv zeta. pose proof (reachable_no_overflow m Hr) as Ho.
  apply reachable_wf in Hr as Hm.
  destruct (Insert_fresh m key value Hm Ho Hk) as (Hb & Hwf & Hp & _ & Hs).
  assert (He : (key, value) ∈ entries (Insert key value m).2).
  { rewrite Hp. apply elem_of_cons. by left. }
  destruct (Erase_present _ key value Hwf He) as (Hb' & _ & Hs' & _ & _ & Hp').
  assert (Hperm : entries (Erase key (Insert key value m).2).2 ≡ₚ entries m).
  { apply (inj (cons (key, value))). by rewrite Hp', Hp. }
  split_and!; [done|done|done|unfold Size; lia|].
  intros key'. apply Find_Permutation; [by apply Erase_wf|done|done].
Qed.

(** X7: on a reachable state that does not store [key], [Insert key value]
    appends the entry at the end of the chain of [key] in the state left by
    the load test ([Rehash m] when the test succeeds, [m] itself otherwise)
    and leaves every other chain of that state as it is. *)
Theorem X7_insert_appends_to_chain m key value :
  reachable m → ¬ contains m key →
  let m1 := if load_exceeded (capacity_ m) (size_ m) then Rehash m else m in
  let id := hasher key mod capacity_ m1 in
  chain (Insert key value m).2 id = chain m1 id ++ [(key, value)] ∧
  (∀ id', 0 ≤ id' → id' ≠ id → chain (Insert key value m).2 id' = chain m1 id').
Proof.
  intros Hr Hk. cbv zeta. rewrite <- grow_if_loaded_eq.
  pose proof (reachable_no_overflow m Hr) as Ho.
  apply reachable_wf in Hr as Hm. pose proof (grow_wf m Hm Ho) as Hg.
  rewrite <- (contains_Permutation _ _ key (grow_entries m Hm Ho)) in Hk.
  pose proof (bucket_index (grow_if_loaded m) key Hg) as Hid.
  pose proof (chain_lookup _ _ Hg Hid) as Hch.
  unfold Insert. rewrite (FindInList_absent _ key Hg Hk). simpl. split.
  - unfold chain at 1, push_back. simpl.
    by rewrite list_lookup_alter_eq, Hch.
  - intros id' Hge Hne. unfold chain, push_back. simpl.
    rewrite list_lookup_alter_ne; [done|]. intros Heq. apply Hne.
    apply Z2Nat.inj in Heq; lia.
Qed.

(** ** The buckets [Rehash] builds *)

Lemma redistribute_lookup cap es nd (j : nat) :
  0 < cap →
  foldl (λ nd i, push_back (hasher i.1 mod cap) i nd) nd es !! j
  = (λ l, l ++ filter (λ e, hasher e.1 mod cap = Z.of_nat j) es) <$> nd !! j.
Proof.
  intros Hcap. revert nd. induction es as [|e es IH]; intros nd; simpl.
  { destruct (nd !! j); simpl; [|done]. by rewrite app_nil_r. }
  pose proof (Z.mod_pos_bound (hasher e.1) cap Hcap) as Hid.
  rewrite IH. unfold push_back. rewrite list_lookup_alter, filter_cons.
  destruct (decide (Z.to_nat (hasher e.1 mod cap) = j)) as [<-|Hne].
  - rewrite decide_True by lia.
    destruct (nd !! _); simpl; [|done]. by rewrite <- app_assoc.
  - rewrite decide_False by lia. done.
Qed.

(** X8: [Rehash] on a reachable state builds four times as many buckets;
    bucket [j] of the new vector holds the entries whose key hashes to [j]
    modulo the new capacity, in the order in which the old vector lists
    them (bucket by bucket, each chain front to back). *)
Theorem X8_rehash_buckets m :
  reachable m →
  capacity_ (Rehash m) = capacity_ m * 4 ∧
  Z.of_nat (length (data_ (Rehash m))) = capacity_ m * 4 ∧
  ∀ j, 0 ≤ j < capacity_ m * 4 →
    chain (Rehash m) j
    = filter (λ e, hasher e.1 mod (capacity_ m * 4) = j) (entries m).
Proof.
  intros Hr. pose proof (reachable_no_overflow m Hr) as [H4 _].
  apply reachable_wf in Hr as Hm. pose proof (wf_capacity_pos m Hm) as Hpos.
  pose proof (Rehash_capacity m ltac:(lia) H4) as Hc.
  split_and!; [lia|rewrite Rehash_data_length; lia|].
  intros j Hj. unfold chain. simpl in *. rewrite Hc, foldl_chains.
  rewrite redistribute_lookup by lia.
  rewrite lookup_replicate_2 by lia. simpl.
  replace (4 * capacity_ m) with (capacity_ m * 4) by lia.
  by rewrite Z2Nat.id by lia.
Qed.

(** ** Order of insertion *)

Lemma Insert_result m k v :
  wf m → no_overflow m → (Insert k v m).1 = bool_decide (¬ contains m k).
Proof.
  intros Hm Ho. destruct (decide (contains m k)) as [Hk|Hk].
  - rewrite Insert_present by done. simpl. by rewrite bool_decide_false by tauto.
  - destruct (Insert_fresh m k v Hm Ho Hk) as (-> & _).
    by rewrite bool_decide_true.
Qed.

Lemma Insert_entries m k v :
  wf m → no_overflow m →
  entries (Insert k v m).2
  ≡ₚ (if decide (contains m k) then [] else [(k, v)]) ++ entries m.
Proof.
  intros Hm Ho. destruct (decide (contains m k)) as [Hk|Hk].
  - rewrite Insert_present by done. simpl. by apply grow_entries.
  - by destruct (Insert_fresh m k v Hm Ho Hk) as (_ & _ & -> & _).
Qed.

Lemma Insert_contains_other m k v k' :
  wf m → no_overflow m → k' ≠ k →
  contains (Insert k v m).2 k' ↔ contains m k'.
Proof.
  intros Hm Ho Hne. unfold contains. rewrite Insert_entries by done.
  destruct (decide (contains m k)); [done|]. csimpl.
  rewrite elem_of_cons. split; [intros [?|?]; [congruence|done]|by right].
Qed.

(** X9: two [Insert]s of different keys give the same contents in either
    order: each returns what it returns in the other order, and the two
    final states have the same entries, the same size and the same answer
    of [Find] for every key.  The state is that of a map [n] calls after
    its construction, with the two calls below [max_calls]. *)
Theorem X9_insert_order_irrelevant n m k1 v1 k2 v2 :
  reachable_in n m → n + 1 < max_calls → k1 ≠ k2 →
  let a := Insert k2 v2 (Insert k1 v1 m).2 in
  let b := Insert k1 v1 (Insert k2 v2 m).2 in
  (Insert k1 v1 m).1 = b.1 ∧ (Insert k2 v2 m).1 = a.1 ∧
  entries a.2 ≡ₚ entries b.2 ∧
  Size a.2 = Size b.2 ∧
  (∀ key, Find key a.2 = Find key b.2).
Proof.
  intros Hr Hn Hne. cbv zeta.
  pose proof (reachable_in_within n m Hr ltac:(lia)) as Hw.
  pose proof (within_no_overflow n m Hw ltac:(lia)) as Ho.
  pose proof (exec_within (CallInsert k1 v1) n m Hw ltac:(lia)) as Hw1.
  pose proof (exec_within (CallInsert k2 v2) n m Hw ltac:(lia)) as Hw2.
  pose proof (within_no_overflow _ _ Hw1 Hn) as Ho1.
  pose proof (within_no_overflow _ _ Hw2 Hn) as Ho2.
  destruct Hw as (Hm & _). destruct Hw1 as (Hm1 & _). destruct Hw2 as (Hm2 & _).
  simpl in Hm1, Hm2, Ho1, Ho2.
  pose proof (Insert_contains_other m k1 v1 k2 Hm Ho ltac:(done)) as Hc2.
  pose proof (Insert_contains_other m k2 v2 k1 Hm Ho ltac:(done)) as Hc1.
  assert (Hent : entries (Insert k2 v2 (Insert k1 v1 m).2).2
                 ≡ₚ entries (Insert k1 v1 (Insert k2 v2 m).2).2).
  { rewrite !Insert_entries by done.
    rewrite (decide_ext _ _ _ _ Hc1), (decide_ext _ _ _ _ Hc2).
    rewrite !(assoc (++)). f_equiv. apply (comm (++)). }
  assert (Hwa : wf (Insert k2 v2 (Insert k1 v1 m).2).2) by by apply Insert_wf.
  assert (Hwb : wf (Insert k1 v1 (Insert k2 v2 m).2).2) by by apply Insert_wf.
  split_and!.
  - rewrite !Insert_result by done. apply bool_decide_ext. tauto.
  - rewrite !Insert_result by done. apply bool_decide_ext. tauto.
  - done.
  - unfold Size. rewrite (wf_size _ Hwa), (wf_size _ Hwb). by rewrite Hent.
  - intros key. by apply Find_Permutation.
Qed.

(** ** The capacity over time *)

Lemma exec_capacity_mono c m :
  wf m → no_overflow m → c ≠ CallClear → capacity_ m ≤ capacity_ (exec c m).2.
Proof.
  intros Hm [H4 _] Hc. pose proof (wf_capacity_pos m Hm) as Hpos.
  destruct c; simpl; try done; try lia.
  - rewrite Insert_capacity, grow_if_loaded_eq.
    destruct (load_exceeded _ _); [|lia]. rewrite Rehash_capacity; lia.
  - by rewrite Erase_capacity.
  - destruct (At key m); simpl; lia.
Qed.

(** X12: the table never shrinks: over any calls other than [Clear] the
    capacity does not decrease, and it is never below [kMutexesCount].
    The state is that of a map [n] calls after its construction, the calls
    counted up to [max_calls]. *)
Theorem X12_capacity_never_shrinks n m cs :
  reachable_in n m → n + Z.of_nat (length cs) ≤ max_calls → CallClear ∉ cs →
  kMutexesCount ≤ capacity_ m ∧ capacity_ m ≤ capacity_ (run cs m).
Proof.
  intros Hr Hn Hcl.
  pose proof (reachable_in_within n m Hr ltac:(lia)) as Hw.
  destruct (run_in_range cs n m Hw Hn) as [_ Hrange].
  destruct Hw as (Hm & _). split.
  - destruct (wf_growth m Hm) as [g ->].
    pose proof (Z.pow_pos_nonneg 4 (Z.of_nat g)). unfold kMutexesCount. lia.
  - clear Hr Hn. revert m Hm Hrange.
    induction cs as [|c cs IH]; intros m Hm Hrange; simpl; [lia|].
    destruct Hrange as [Ho Hrange]. apply not_elem_of_cons in Hcl as [Hc Hcl].
    etrans; [by apply (exec_capacity_mono c)|].
    apply IH; [done|by apply exec_wf|done].
Qed.

(** ** The constructors *)

(** X1: the three constructors build the same map whatever the expected
    size and the concurrency level: capacity [kMutexesCount], that many
    empty buckets, size 0.  It stores no key: [Find] returns
    [(false, V{})], [At] throws, [Erase] returns [false] and changes
    nothing. *)
Theorem X1_constructors_ignore_hints expected_size concurrency_level :
  let m : Map := construct_sized_striped expected_size concurrency_level in
  construct_sized expected_size = m ∧ construct = m ∧ m = new_map ∧
  reachable m ∧
  Size m = 0 ∧ capacity_ m = 63 ∧ length (data_ m) = 63%nat ∧
  (∀ l, l ∈ data_ m → l = []) ∧
  (∀ key, Find key m = (false, V_default) ∧
          At key m = Throws out_of_range ∧
          Erase key m = (false, m)).
Proof.
  cbv zeta. change (construct_sized_striped _ _) with (new_map : Map).
  assert (Hempty : ∀ key, ¬ contains (new_map : Map) key).
  { intros key. unfold contains. rewrite entries_new_map.
    by intros ?%elem_of_nil. }
  split_and!; try done.
  - exists 0. split; [done|]. by exists [].
  - intros l Hl.
    by apply (elem_of_replicate (Z.to_nat kMutexesCount) [] l) in Hl as [-> _].
  - intros key. pose proof new_map_wf as Hwf.
    split_and!.
    + by apply Find_absent.
    + apply At_throws. by rewrite Find_absent.
    + by apply Erase_absent.
Qed.

(** ** The lock discipline *)

Lemma replay_app held t1 t2 :
  replay held (t1 ++ t2) = replay held t1 ≫= λ h, replay h t2.
Proof.
  revert held. induction t1 as [|ev t1 IH]; intros held; [done|].
  destruct ev; cbn [replay app].
  - destruct (forallb _ held); [apply IH|done].
  - destruct (bool_decide _); [apply IH|done].
  - destruct (bool_decide _); [apply IH|done].
  - destruct (_ && _); [apply IH|done].
Qed.

Lemma filter_lock_events_app t1 t2 :
  filter is_lock_event (t1 ++ t2)
  = filter is_lock_event t1 ++ filter is_lock_event t2.
Proof. apply filter_app. Qed.

(** Taking every stripe mutex, replacing [data_] and releasing them, as
    [Rehash] does, keeps the rules when the rehash mutex is held. *)
Lemma replay_stop_the_world :
  replay [rehash_mutex_] (lock_all.1 ++ Swap :: unlock_all.1)
  = Some [rehash_mutex_].
Proof. vm_compute. reflexivity. Qed.

Lemma replay_stripe id dids :
  Forall (λ did, did mod mutexes_count_ = id) dids →
  replay [] (Lock (mutexes_ id) :: (Touch <$> dids) ++ [Unlock (mutexes_ id)])
  = Some [].
Proof.
  intros Hd. simpl. induction Hd as [|did dids Hdid _ IH]; simpl.
  - rewrite bool_decide_true by (apply list_elem_of_singleton; done).
    rewrite filter_cons, decide_False by (intros Hn; by apply Hn). done.
  - rewrite Hdid.
    rewrite bool_decide_true by (apply list_elem_of_singleton; done). done.
Qed.

Lemma traced_bind_1 {A B} (f : A → traced B) (x : traced A) :
  (x ≫= f).1 = x.1 ++ (f x.2).1.
Proof.
  destruct x as [t1 a]. unfold mbind, traced_bind. simpl.
  by destruct (f a).
Qed.

Lemma traced_bind_2 {A B} (f : A → traced B) (x : traced A) :
  (x ≫= f).2 = (f x.2).2.
Proof.
  destruct x as [t1 a]. unfold mbind, traced_bind. simpl.
  by destruct (f a).
Qed.

(** What each member function does to the mutexes and to [data_]. *)
Lemma grow_if_loaded_traced_events m :
  (grow_if_loaded_traced m).1
  = if load_exceeded (capacity_ m) (size_ m)
    then Lock rehash_mutex_ :: (lock_all.1 ++ Swap :: unlock_all.1)
           ++ [Unlock rehash_mutex_]
    else [].
Proof.
  unfold grow_if_loaded_traced. destruct (load_exceeded _ _); reflexivity.
Qed.

Lemma grow_if_loaded_traced_result m :
  (grow_if_loaded_traced m).2 = grow_if_loaded m.
Proof.
  unfold grow_if_loaded_traced, grow_if_loaded.
  destruct (load_exceeded _ _); reflexivity.
Qed.

Lemma Insert_traced_events key value m :
  (Insert_traced key value m).1
  = (if load_exceeded (capacity_ m) (size_ m)
     then Lock rehash_mutex_ :: (lock_all.1 ++ Swap :: unlock_all.1)
            ++ [Unlock rehash_mutex_]
     else []) ++
    (let id := hasher key mod capacity_ (grow_if_loaded m) in
     Lock (mutexes_ (hasher key mod mutexes_count_))
       :: (Touch <$> (match FindInList (grow_if_loaded m) id key with
                      | Some _ => [id]
                      | None => [id; id]
                      end))
       ++ [Unlock (mutexes_ (hasher key mod mutexes_count_))]).
Proof.
  unfold Insert_traced.
  rewrite traced_bind_1, grow_if_loaded_traced_events,
    grow_if_loaded_traced_result.
  f_equal. cbv zeta. destruct (FindInList _ _ key); reflexivity.
Qed.

Lemma Insert_traced_result key value m :
  (Insert_traced key value m).2 = Insert key value m.
Proof.
  unfold Insert_traced, Insert.
  rewrite traced_bind_2, grow_if_loaded_traced_result.
  cbv zeta. destruct (FindInList _ _ key); reflexivity.
Qed.

Lemma Erase_traced_events key m :
  (Erase_traced key m).1
  = (let id := hasher key mod capacity_ m in
     Lock (mutexes_ (hasher key mod mutexes_count_))
       :: (Touch <$> (match FindInList m id key with
                      | Some _ => [id; id]
                      | None => [id]
                      end))
       ++ [Unlock (mutexes_ (hasher key mod mutexes_count_))]).
Proof.
  unfold Erase_traced. cbv zeta.
  destruct (FindInList _ _ key) as [[it e]|]; reflexivity.
Qed.

Lemma exec_traced_events c m :
  (exec_traced c m).1
  = match c with
    | CallInsert key value => (Insert_traced key value m).1
    | CallErase key => (Erase_traced key m).1
    | CallClear =>
        Lock rehash_mutex_ :: (lock_all.1 ++ Swap :: unlock_all.1)
          ++ [Unlock rehash_mutex_]
    | CallFind key | CallAt key =>
        [Lock (mutexes_ (hasher key mod mutexes_count_));
         Touch (hasher key mod capacity_ m);
         Unlock (mutexes_ (hasher key mod mutexes_count_))]
    | CallSize => []
    end.
Proof.
  destruct c; unfold exec_traced; try reflexivity.
  - rewrite traced_bind_1. apply app_nil_r.
  - rewrite traced_bind_1. apply app_nil_r.
Qed.

Lemma exec_traced_result c m : (exec_traced c m).2 = exec c m.
Proof.
  destruct c; simpl; try reflexivity.
  - rewrite traced_bind_2. simpl. by rewrite Insert_traced_result.
  - unfold Erase_traced, Erase. cbv zeta.
    destruct (FindInList _ _ key) as [[it e]|]; reflexivity.
Qed.

(** X10: run alone from a reachable state, every member function returns
    what the model without mutexes returns and keeps the rules of
    [replay] from its first mutex operation to its last: a mutex is locked
    only while every mutex held comes before it in the order rehash mutex,
    stripe 0, stripe 1, ...; only held mutexes are unlocked; a bucket is
    read or written only under the stripe mutex of its index modulo
    [mutexes_count_]; [data_] is replaced only under the rehash mutex and
    all stripe mutexes; and no mutex is held when the function returns or
    throws. *)
Theorem X10_lock_discipline m c :
  reachable m →
  (exec_traced c m).2 = exec c m ∧
  replay [] (exec_traced c m).1 = Some [].
Proof.
  intros Hr. split; [apply exec_traced_result|].
  pose proof (reachable_no_overflow m Hr) as Ho.
  apply reachable_wf in Hr as Hm.
  assert (Hstripe : ∀ m' key, wf m' →
            (hasher key mod capacity_ m') mod mutexes_count_
            = hasher key mod mutexes_count_).
  { intros m' key Hm'. apply Z.mod_mod_divide.
    destruct (wf_growth m' Hm') as [g ->]. exists (4 ^ Z.of_nat g).
    unfold mutexes_count_. lia. }
  assert (Hworld : replay [] (Lock rehash_mutex_
                     :: (lock_all.1 ++ Swap :: unlock_all.1)
                     ++ [Unlock rehash_mutex_]) = Some []).
  { vm_compute. reflexivity. }
  rewrite exec_traced_events.
  destruct c.
  - rewrite Insert_traced_events, replay_app.
    pose proof (grow_wf m Hm Ho) as Hg.
    assert (Hpre : replay [] (if load_exceeded (capacity_ m) (size_ m)
                      then Lock rehash_mutex_
                             :: (lock_all.1 ++ Swap :: unlock_all.1)
                             ++ [Unlock rehash_mutex_]
                      else []) = Some []).
    { destruct (load_exceeded _ _); [exact Hworld|done]. }
    rewrite Hpre. simpl mbind. cbv zeta. apply replay_stripe.
    destruct (FindInList _ _ key); repeat constructor; by apply Hstripe.
  - rewrite Erase_traced_events. cbv zeta. apply replay_stripe.
    destruct (FindInList _ _ key); repeat constructor; by apply Hstripe.
  - exact Hworld.
  - apply (replay_stripe _ [_]). repeat constructor. by apply Hstripe.
  - apply (replay_stripe _ [_]). repeat constructor. by apply Hstripe.
  - done.
Qed.


(** ** The load factor *)




End Proofs.


(** ** Facts about the sample maps *)

Import IntMap.

Example m3_buckets :
  chain m3 1 = [(1, 10); (64, 640); (127, 1270)] ∧ chain m3 2 = [] ∧ Size m3 = 3.
Proof. vm_compute. repeat split. Qed.

Example m57_loaded :
  capacity_ m57 = 63 ∧ Size m57 = 57 ∧
  load_exceeded (capacity_ m57) (size_ m57) = true.
Proof. vm_compute. repeat split. Qed.

(** A state given as a run of [cs] from a fresh map is reachable. *)
Ltac reach cs :=
  exists (Z.of_nat (length cs));
  split; [vm_compute; reflexivity|exists cs; split; reflexivity].

(** C8, as stated, fails: key 0 is stored in [m57], [Insert 0 5] returns
    [false], and the state it leaves has capacity 252 instead of 63. *)
Lemma C8_counterexample :
  reachable m57 ∧ contains m57 0 ∧
  Find 0 m57 = (true, 0) ∧
  (Insert 0 5 m57).1 = false ∧
  (Insert 0 5 m57).2 ≠ m57 ∧
  capacity_ m57 = 63 ∧
  capacity_ (Insert 0 5 m57).2 = 252.
Proof.
  split_and!.
  - reach (insert_calls (pairs 57)).
  - apply (bool_decide_unpack _). vm_compute. exact I.
  - vm_compute. reflexivity.
  - vm_compute. reflexivity.
  - intros Heq. apply (f_equal capacity_) in Heq.
    vm_compute in Heq. discriminate.
  - vm_compute. reflexivity.
  - vm_compute. reflexivity.
Qed.

Lemma C1_witness :
  reachable_in 5 m3 ∧ 5 < max_calls ∧
  Find 5 (Insert 5 50 m3).2 = (true, 50) ∧
  (Insert 64 7 m3).1 = false ∧
  Find 64 (Insert 64 7 m3).2 = (true, 640).
Proof.
  assert (Hr : reachable_in 5 m3) by (exists calls3; split; reflexivity).
  assert (Hn : 5 < max_calls) by (vm_compute; reflexivity).
  assert (Hins : (Insert 5 50 m3).1 = true) by (vm_compute; reflexivity).
  assert (Hf : Find 64 m3 = (true, 640)) by (vm_compute; reflexivity).
  split_and!; [exact Hr|exact Hn| |
    apply (proj2 (C1_insert_find_no_overwrite 5 m3 64 7 Hr Hn) 640 7 Hf)..].
  exact (proj1 (proj1 (C1_insert_find_no_overwrite 5 m3 5 50 Hr Hn) Hins)).
Defined.

Lemma C2_witness :
  reachable m58 ∧
  (kMutexesCount | capacity_ m58) ∧
  ∀ h, (h mod capacity_ m58) mod kMutexesCount = h mod kMutexesCount.
Proof.
  assert (Hr : reachable m58) by reach (insert_calls (pairs 58)).
  pose proof (C2_capacity_multiple_of_stripes m58 Hr) as (_ & Hd & _ & Hh & _).
  split_and!; [exact Hr|exact Hd|exact Hh].
Defined.

Lemma C3_witness :
  NoDup (pairs 58).*1 ∧ length (pairs 58) = 58%nat ∧
  capacity_ (filled (pairs 58) 57) = 63 ∧
  capacity_ (filled (pairs 58) 58) = 252 ∧
  ∀ key value, (key, value) ∈ pairs 58 →
    Find key (filled (pairs 58) 58) = (true, value).
Proof.
  assert (Hnd : NoDup (pairs 58).*1).
  { apply (bool_decide_unpack _). vm_compute. exact I. }
  assert (Hlen : length (pairs 58) = 58%nat) by (vm_compute; reflexivity).
  pose proof (C3_growth_at_58th_insert (pairs 58) Hnd Hlen)
    as (_ & Hsmall & _ & Hcap & _ & _ & Hfind & _).
  split_and!; [exact Hnd|exact Hlen| |exact Hcap|exact Hfind].
  apply (Hsmall 57%nat). lia.
Defined.

Lemma C4_witness :
  reachable_in 5 m3 ∧ 5 < max_calls ∧
  Size m3 = Z.of_nat (length (entries m3)) ∧
  Size (Erase 64 m3).2 = Size m3 - 1.
Proof.
  assert (Hr : reachable_in 5 m3) by (exists calls3; split; reflexivity).
  assert (Hn : 5 < max_calls) by (vm_compute; reflexivity).
  pose proof (C4_size_counts_entries 5 m3 Hr Hn) as (Hs & _ & He & _).
  split_and!; [exact Hr|exact Hn|exact Hs|].
  rewrite (He 64). vm_compute. reflexivity.
Defined.

Lemma C6_witness :
  reachable m3 ∧
  (At 2 m3 = Throws out_of_range ↔ ¬ contains m3 2) ∧
  (At 64 m3 = Returns 640 ↔ Find 64 m3 = (true, 640)).
Proof.
  assert (Hr : reachable m3) by reach calls3.
  split_and!; [exact Hr| |].
  - apply (C6_at_throws_iff_absent m3 2 Hr).
  - apply (C6_at_throws_iff_absent m3 64 Hr).
Defined.

Lemma C7_witness :
  reachable m3 ∧
  ((Erase 64 m3).1 = true ↔ contains m3 64) ∧
  ¬ contains (Erase 64 m3).2 64.
Proof.
  assert (Hr : reachable m3) by reach calls3.
  pose proof (C7_erase_removes_matching_entry m3 64 Hr)
    as (Hb & _ & _ & Hgone).
  split_and!; [exact Hr|exact Hb|exact Hgone].
Defined.

Lemma C8_witness :
  reachable m57 ∧ contains m57 0 ∧
  (Insert 0 5 m57).1 = false ∧
  ∀ key, Find key (Insert 0 5 m57).2 = Find key m57.
Proof.
  assert (Hr : reachable m57) by reach (insert_calls (pairs 57)).
  assert (Hk : contains m57 0).
  { apply (bool_decide_unpack _). vm_compute. exact I. }
  pose proof (C8_insert_present_keeps_contents m57 0 5 Hr Hk)
    as (Hb & _ & _ & Hf & _).
  split_and!; [exact Hr|exact Hk|exact Hb|exact Hf].
Defined.

(** ** The further properties on the sample maps *)

(** [replay] refuses a stripe locked out of order or twice, an unlock or
    an access without the mutex, and a replacement of [data_] without all
    of them. *)
Example replay_refuses :
  replay [] [Lock (mutexes_ 1); Lock (mutexes_ 0)] = None ∧
  replay [] [Lock (mutexes_ 0); Lock rehash_mutex_] = None ∧
  replay [] [Lock (mutexes_ 0); Lock (mutexes_ 0)] = None ∧
  replay [] [Unlock (mutexes_ 0)] = None ∧
  replay [] [Lock (mutexes_ 4); Touch 68] = None ∧
  replay [] [Lock (mutexes_ 5); Touch 68] = Some [mutexes_ 5] ∧
  replay [] (Lock rehash_mutex_ :: lock_all.1 ++ [Swap]) <> None ∧
  replay [] (lock_all.1 ++ [Swap]) = None.
Proof. vm_compute. repeat split; discriminate. Qed.

(** The 58th insert: the rehash mutex, the 63 stripes up and down, then the
    stripe of the key. *)
Example growing_insert_events :
  length (Insert_traced 57 570 m57).1 = 133%nat ∧
  (Find_traced 64 m58).1 = [Lock (mutexes_ 1); Touch 64; Unlock (mutexes_ 1)].
Proof. vm_compute. repeat split. Qed.

Lemma X2_witness :
  reachable m3 ∧ NoDup (entries m3).*1 ∧
  (Find 64 m3 = (true, 640) ↔ (64, 640) ∈ entries m3).
Proof.
  assert (Hr : reachable m3) by reach calls3.
  pose proof (X2_unique_keys_placed_entries m3 Hr) as (Hnd & _ & Hf & _).
  split_and!; [exact Hr|exact Hnd|exact (Hf 64 640)].
Defined.

Lemma X3_witness :
  reachable m57 ∧ 3 ≠ 57 ∧ Find 3 (Insert 57 570 m57).2 = Find 3 m57.
Proof.
  assert (Hr : reachable m57) by reach (insert_calls (pairs 57)).
  assert (Hne : 3 ≠ 57) by lia.
  split_and!; [exact Hr|exact Hne|].
  exact (proj1 (X3_insert_keeps_other_keys m57 57 570 3 Hr Hne)).
Defined.

Lemma X4_witness :
  reachable m3 ∧ 1 ≠ 64 ∧ Find 1 (Erase 64 m3).2 = Find 1 m3.
Proof.
  assert (Hr : reachable m3) by reach calls3.
  assert (Hne : 1 ≠ 64) by lia.
  split_and!; [exact Hr|exact Hne|].
  exact (proj1 (X4_erase_keeps_other_keys m3 64 1 Hr Hne)).
Defined.

Lemma X5_witness :
  reachable m3 ∧ Find 64 (Erase 64 m3).2 = (false, 0) ∧
  (Insert 64 7 (Erase 64 m3).2).1 = true.
Proof.
  assert (Hr : reachable m3) by reach calls3.
  pose proof (X5_erase_then_lookup m3 64 Hr) as (Hf & _ & _ & Hi).
  split_and!; [exact Hr|exact Hf|exact (proj1 (Hi 7))].
Defined.

Lemma X6_witness :
  reachable m3 ∧ ¬ contains m3 5 ∧
  ∀ key, Find key (Erase 5 (Insert 5 50 m3).2).2 = Find key m3.
Proof.
  assert (Hr : reachable m3) by reach calls3.
  assert (Hk : ¬ contains m3 5).
  { apply (bool_decide_unpack _). vm_compute. exact I. }
  pose proof (X6_insert_then_erase m3 5 50 Hr Hk) as (_ & _ & _ & _ & Hf).
  split_and!; [exact Hr|exact Hk|exact Hf].
Defined.

Lemma X7_witness :
  reachable m57 ∧ ¬ contains m57 57 ∧
  chain (Insert 57 570 m57).2 57 = chain (Rehash m57) 57 ++ [(57, 570)].
Proof.
  assert (Hr : reachable m57) by reach (insert_calls (pairs 57)).
  assert (Hk : ¬ contains m57 57).
  { apply (bool_decide_unpack _). vm_compute. exact I. }
  split_and!; [exact Hr|exact Hk|].
  exact (proj1 (X7_insert_appends_to_chain m57 57 570 Hr Hk)).
Defined.

Lemma X8_witness :
  reachable m57 ∧ capacity_ (Rehash m57) = capacity_ m57 * 4 ∧
  chain (Rehash m57) 200
  = filter (λ e, hasher e.1 mod (capacity_ m57 * 4) = 200) (entries m57).
Proof.
  assert (Hr : reachable m57) by reach (insert_calls (pairs 57)).
  pose proof (X8_rehash_buckets m57 Hr) as (Hc & _ & Hb).
  split_and!; [exact Hr|exact Hc|].
  apply (Hb 200). vm_compute. split; [discriminate|reflexivity].
Defined.

Lemma X9_witness :
  reachable_in 5 m3 ∧ 5 + 1 < max_calls ∧ 5 ≠ 6 ∧
  ∀ key, Find key (Insert 6 60 (Insert 5 50 m3).2).2
         = Find key (Insert 5 50 (Insert 6 60 m3).2).2.
Proof.
  assert (Hr : reachable_in 5 m3) by (exists calls3; split; reflexivity).
  assert (Hn : 5 + 1 < max_calls) by (vm_compute; reflexivity).
  assert (Hne : 5 ≠ 6) by lia.
  pose proof (X9_insert_order_irrelevant 5 m3 5 50 6 60 Hr Hn Hne)
    as (_ & _ & _ & _ & Hf).
  split_and!; [exact Hr|exact Hn|exact Hne|exact Hf].
Defined.

Lemma X10_witness :
  reachable m57 ∧
  replay [] (exec_traced (CallInsert 57 570) m57).1 = Some [].
Proof.
  assert (Hr : reachable m57) by reach (insert_calls (pairs 57)).
  split; [exact Hr|].
  exact (proj2 (X10_lock_discipline m57 (CallInsert 57 570) Hr)).
Defined.

Lemma X12_witness :
  reachable_in 57 m57 ∧
  57 + Z.of_nat (length [CallInsert 57 570; CallErase 3]) ≤ max_calls ∧
  (CallClear ∉ [CallInsert 57 570; CallErase 3]) ∧
  capacity_ m57 ≤ capacity_ (run [CallInsert 57 570; CallErase 3] m57).
Proof.
  assert (Hr : reachable_in 57 m57).
  { exists (insert_calls (pairs 57)). split; reflexivity. }
  assert (Hn : 57 + Z.of_nat (length [CallInsert 57 570; CallErase 3])
               ≤ max_calls).
  { vm_compute. discriminate. }
  assert (Hcl : CallClear ∉ [CallInsert 57 570; CallErase 3]).
  { intros Hin. repeat (apply elem_of_cons in Hin as [Hin|Hin]; [discriminate|]).
    by apply elem_of_nil in Hin. }
  split_and!; [exact Hr|exact Hn|exact Hcl|].
  exact (proj2 (X12_capacity_never_shrinks 57 m57 _ Hr Hn Hcl)).
Defined.

Lemma X13_witness :
  0 < 63 < 2 ^ 64 ∧ 0 ≤ 57 < 2 ^ 64 ∧ 899999 * 63 < 1000000 * 57.
Proof.
  assert (Hc : 0 < 63 < 2 ^ 64) by lia.
  assert (Hs : 0 ≤ 57 < 2 ^ 64) by lia.
  split_and!; [lia..|].
  exact (proj1 (X13_load_test_accuracy 63 57 Hc Hs) load_exceeded_63_57).
Defined.

